(** * webfeed: a shallow embedding of [webfeed.go]

    The Go package [webfeed] decodes an RSS or Atom document into one
    [Feed] value.  This development embeds its functions ([Read],
    [rssFeed], [rssTime], [atomFeed], [feed.link], [atomContent.Data],
    [fixHtml]) and proves the properties its specification states.

    The package calls four Go libraries: [encoding/xml], [time],
    [go.net/html] and [bytes].  [bytes.Index] is embedded as a function;
    the other three are interfaces (type classes) the embedding is
    parametric in, so every theorem holds for any behaviour of these
    libraries, and the facts a theorem needs about a library are its
    hypotheses.

    The second part embeds the web application [feedme.go] that reads
    the feeds: the order of its feed list, its walk over an OPML
    outline, the message of its error list, and the handlers that
    subscribe, unsubscribe and refresh, with the datastore and the
    package's other files as the answers to the calls made to them. *)

From Stdlib Require Import ZArith Lia.
From Stdlib Require Import Strings.String Strings.Ascii Strings.Byte.
From stdpp Require Import base option list strings.
From stdpp Require Import gmap.

Set Default Proof Using "Type".
Local Open Scope string_scope.
Local Open Scope list_scope.

(** ** Go values *)

(** [[]byte]; a Go [string] is a Rocq [string].  The conversions
    [[]byte(s)] and [string(b)] copy the bytes. *)
Abbreviation bytes := (list byte).

Definition bytes_of_string (s : string) : bytes := list_byte_of_string s.
Definition string_of_bytes (b : bytes) : string := string_of_list_byte b.

#[global] Instance byte_eq_dec : EqDecision byte := Byte.byte_eq_dec.

(** [time.Time]: an instant (seconds and nanoseconds since
    0001-01-01T00:00:00Z, Go's zero instant) together with the offset of
    its location, in seconds east of UTC.  [time.Time{}] is all zero. *)
Record Time : Type := mkTime {
  Time_sec : Z;
  Time_nsec : Z;
  Time_offset : Z
}.

Definition Time_zero : Time := mkTime 0 0 0.

#[global] Instance Time_eq_dec : EqDecision Time.
Proof. solve_decision. Defined.

(** A value given to [panic] and seen by [recover].  [fixHtml] compares
    it with [bytes.ErrTooLarge] only. *)
Inductive PanicValue : Type :=
  | ErrTooLarge
  | PanicOther (msg : string).

#[global] Instance PanicValue_eq_dec : EqDecision PanicValue.
Proof. solve_decision. Defined.

(** ** Returning or panicking *)

(** A Go call either returns or panics; [fixHtml] recovers from one
    panic and lets the others through, so panics are part of the model. *)
Inductive Outcome (A : Type) : Type :=
  | Returned (a : A)
  | Panicked (v : PanicValue).
Arguments Returned {A} a.
Arguments Panicked {A} v.

#[global] Instance Outcome_ret : MRet Outcome := fun A a => Returned a.
#[global] Instance Outcome_bind : MBind Outcome := fun A B k m =>
  match m with
  | Returned a => k a
  | Panicked v => Panicked v
  end.

(** [defer d; body]: the deferred function [d] runs when [body] is left,
    with what [recover()] gives there ([None] for [nil]: no panic) and
    the value the named result holds at that point ([nil] when the body
    panicked before any [return]). *)
Definition with_defer {A} (zero : A)
    (d : option PanicValue -> A -> Outcome A) (body : Outcome A) : Outcome A :=
  match body with
  | Returned a => d None a
  | Panicked v => d (Some v) zero
  end.

(** ** bytes.Index *)

Fixpoint bytes_HasPrefix (s prefix : bytes) {struct prefix} : bool :=
  match prefix, s with
  | [], _ => true
  | _ :: _, [] => false
  | p :: prefix', c :: s' => Byte.eqb c p && bytes_HasPrefix s' prefix'
  end.

Fixpoint bytes_Index_from (i : Z) (s sep : bytes) : Z :=
  if bytes_HasPrefix s sep then i
  else match s with
       | [] => (-1)%Z
       | _ :: s' => bytes_Index_from (i + 1)%Z s' sep
       end.

(** The index of the first instance of [sep] in [s], or -1. *)
Definition bytes_Index (s sep : bytes) : Z := bytes_Index_from 0 s sep.

(** Go's [len], as an [int]. *)
Definition len {A} (l : list A) : Z := Z.of_nat (length l).

(** [s[i:]] and [s[:i]] for [0 <= i <= len(s)]. *)
Definition slice_from {A} (s : list A) (i : Z) : list A := drop (Z.to_nat i) s.
Definition slice_to {A} (s : list A) (i : Z) : list A := take (Z.to_nat i) s.

(** ** The package's types *)

Record Entry : Type := mkEntry {
  Entry_Title : string;
  Entry_Link : string;
  Entry_Summary : bytes;
  Entry_Content : bytes;
  Entry_When : Time
}.

Record Feed : Type := mkFeed {
  Feed_Title : string;
  Feed_Link : string;
  Feed_Updated : Time;
  Feed_Entries : list Entry
}.

(** [Feed{}] *)
Definition Feed_zero : Feed := mkFeed "" "" Time_zero [].

Record atomLink : Type := mkAtomLink {
  atomLink_Rel : string;
  atomLink_Href : string
}.

Record atomContent : Type := mkAtomContent {
  atomContent_Type : string;
  atomContent_Contents : bytes
}.

Record atomEntry : Type := mkAtomEntry {
  atomEntry_Title : string;
  atomEntry_Link : atomLink;
  atomEntry_Id : string;
  atomEntry_Updated : Time;
  atomEntry_Author : list string;
  atomEntry_Summary : bytes;
  atomEntry_Content : list atomContent
}.

Record rssContent : Type := mkRssContent {
  rssContent_Data : bytes
}.

Record rssItem : Type := mkRssItem {
  rssItem_Title : string;
  rssItem_Link : string;
  rssItem_Description : bytes;
  rssItem_Content : rssContent;
  rssItem_Updated : string
}.

Record rss : Type := mkRss {
  rss_Title : string;
  rss_Link : string;
  rss_Description : bytes;
  rss_Items : list rssItem;
  rss_Updated : string
}.

(** The intermediate record both dialects are unmarshalled into. *)
Record feed : Type := mkfeed {
  feed_Title : string;
  feed_Links : list atomLink;
  feed_Updated : Time;
  feed_Author : list string;
  feed_Id : string;
  feed_Entries : list atomEntry;
  feed_Rss : rss
}.

(** ** The libraries the package calls *)

(** [encoding/xml]: [xml.NewDecoder(r).Decode(&f)] on a stream holding
    the given bytes fills a [feed] or fails with an error of its own. *)
Class XmlPkg : Type := {
  xml_error : Type;
  xml_Decode : bytes -> feed + xml_error
}.

(** [time]: [time.Parse(layout, value)]; [None] stands for a non-nil
    error, which [rssTime] only tests against [nil]. *)
Class TimePkg : Type := {
  time_Parse : string -> string -> option Time
}.

(** [go.net/html].  [html_Render n] is [html.Render(buf, n)] on a fresh
    [bytes.Buffer]: it returns with the bytes written and a [nil] error
    ([inl]), returns a non-nil error ([inr]), or panics, with
    [bytes.ErrTooLarge] when the buffer cannot grow. *)
Class HtmlPkg : Type := {
  Node : Type;
  html_error : Type;
  html_Parse : bytes -> Node + html_error;
  html_Render : Node -> Outcome (bytes + html_error);
  html_EscapeString : string -> string;
  html_UnescapeString : string -> string
}.

(** ** The package's functions *)

Section webfeed.
Context `{!XmlPkg, !TimePkg, !HtmlPkg}.

(** The Go interface [error], for the values this package returns: what
    the decoder returned, or this package's [ErrBadTime]. *)
Inductive error : Type :=
  | XmlError (e : xml_error)
  | ErrBadTime (s : string).

(** [[]byte(html.EscapeString(string(wild)))] *)
Definition escapeBytes (wild : bytes) : bytes :=
  bytes_of_string (html_EscapeString (string_of_bytes wild)).

Definition openBody : bytes := bytes_of_string "<body>".
Definition closeBody : bytes := bytes_of_string "</body>".

(** The function deferred in [fixHtml]. *)
Definition fixHtml_deferred (wild : bytes)
    (recovered : option PanicValue) (well : bytes) : Outcome bytes :=
  match recovered with
  | Some err =>
      if decide (err = ErrTooLarge) then Returned (escapeBytes wild)
      else Panicked err
  | None => Returned well
  end.

Definition fixHtml (wild : bytes) : Outcome bytes :=
  match html_Parse wild with
  | inr _ => Returned (escapeBytes wild)
  | inl n =>
      with_defer [] (fixHtml_deferred wild)
        (r ← html_Render n;
         match r with
         | inr _ => Returned (escapeBytes wild)
         | inl well =>
             let i := bytes_Index well openBody in
             if (i <? 0)%Z then Returned (escapeBytes wild) else
             let well := slice_from well (i + len openBody) in
             let i := bytes_Index well closeBody in
             if (i <? 0)%Z then Returned (escapeBytes wild) else
             Returned (slice_to well i)
         end)
  end.

(** [rssTimeFormats]: time formats encountered in the wild. *)
Definition rssTimeFormats : list string :=
  [ "Mon, 2 Jan 2006 15:04:05 -0700";
    "Mon, 2 Jan 2006 15:04:05 MST";
    "Mon, 2 Jan 06 15:04:05 -0700";
    "02 January 2006" ].

(** The loop of [rssTime] over the formats still to try: it returns at
    the first format [time.Parse] accepts. *)
Fixpoint rssTime_loop (formats : list string) (s : string) : option Time :=
  match formats with
  | [] => None
  | f :: formats' =>
      match time_Parse f s with
      | Some t => Some t
      | None => rssTime_loop formats' s
      end
  end.

Definition rssTime (s : string) : Time * option error :=
  if decide (s = "") then (Time_zero, None)
  else match rssTime_loop rssTimeFormats s with
       | Some t => (t, None)
       | None => (Time_zero, Some (ErrBadTime s))
       end.

(** [f.Entries = append(f.Entries, ent)] *)
Definition Feed_append (f : Feed) (ent : Entry) : Feed :=
  {| Feed_Title := Feed_Title f;
     Feed_Link := Feed_Link f;
     Feed_Updated := Feed_Updated f;
     Feed_Entries := Feed_Entries f ++ [ent] |}.

(** The loop of [rssFeed] over the items still to visit; its state is
    the feed built so far and the error variable [err]. *)
Fixpoint rssFeed_loop (items : list rssItem) (f : Feed) (err : option error)
    : Outcome (Feed * option error) :=
  match items with
  | [] => Returned (f, err)
  | it :: items' =>
      let '(when, e) := rssTime (rssItem_Updated it) in
      let err := match err, e with
                 | None, Some _ => e
                 | _, _ => err
                 end in
      summary ← fixHtml (rssItem_Description it);
      content ← fixHtml (rssContent_Data (rssItem_Content it));
      let ent := {| Entry_Title := rssItem_Title it;
                    Entry_Link := rssItem_Link it;
                    Entry_Summary := summary;
                    Entry_Content := content;
                    Entry_When := when |} in
      rssFeed_loop items' (Feed_append f ent) err
  end.

Definition rssFeed (r : rss) : Outcome (Feed * option error) :=
  let '(updated, err) := rssTime (rss_Updated r) in
  let f := {| Feed_Title := rss_Title r;
              Feed_Link := rss_Link r;
              Feed_Updated := updated;
              Feed_Entries := [] |} in
  rssFeed_loop (rss_Items r) f err.

(** [(f *feed) link()] over the links still to visit. *)
Fixpoint link_loop (links : list atomLink) : string :=
  match links with
  | [] => ""
  | l :: links' =>
      if decide (atomLink_Rel l = "" \/ atomLink_Rel l = "alternate")
      then atomLink_Href l
      else link_loop links'
  end.

Definition link (f : feed) : string := link_loop (feed_Links f).

(** [(c atomContent) Data()] *)
Definition Data (c : atomContent) : bytes :=
  let unesc := atomContent_Contents c in
  if decide (atomContent_Type c <> "xhtml")
  then bytes_of_string
         (html_UnescapeString (string_of_bytes (atomContent_Contents c)))
  else unesc.

(** The loop of [atomFeed] over the entries still to visit. *)
Fixpoint atomFeed_loop (entries : list atomEntry) (f : Feed) : Outcome Feed :=
  match entries with
  | [] => Returned f
  | ent :: entries' =>
      summary ← fixHtml (atomEntry_Summary ent);
      let e := {| Entry_Title := atomEntry_Title ent;
                  Entry_Link := atomLink_Href (atomEntry_Link ent);
                  Entry_Summary := summary;
                  Entry_Content := [];
                  Entry_When := atomEntry_Updated ent |} in
      e ← match atomEntry_Content ent with
          | c :: _ =>
              content ← fixHtml (Data c);
              mret {| Entry_Title := Entry_Title e;
                      Entry_Link := Entry_Link e;
                      Entry_Summary := Entry_Summary e;
                      Entry_Content := content;
                      Entry_When := Entry_When e |}
          | [] => mret e
          end;
      atomFeed_loop entries' (Feed_append f e)
  end.

Definition atomFeed (a : feed) : Outcome (Feed * option error) :=
  let f := {| Feed_Title := feed_Title a;
              Feed_Link := link a;
              Feed_Updated := feed_Updated a;
              Feed_Entries := [] |} in
  f ← atomFeed_loop (feed_Entries a) f;
  mret (f, None).

Definition Read (r : bytes) : Outcome (Feed * option error) :=
  match xml_Decode r with
  | inr err => Returned (Feed_zero, Some (XmlError err))
  | inl f =>
      if decide (rss_Title (feed_Rss f) <> "") then rssFeed (feed_Rss f)
      else atomFeed f
  end.

End webfeed.

Arguments error {_}.
Arguments openBody : simpl never.
Arguments closeBody : simpl never.

(** ** What the specification says, in its own words *)

(** [sep] occurs nowhere in [s]. *)
Definition Absent (sep s : bytes) : Prop :=
  forall pre post, s <> pre ++ sep ++ post.

(** The first instance of [sep] in [s] has [pre] before it and [post]
    after it. *)
Definition FirstAt (sep s pre post : bytes) : Prop :=
  s = pre ++ sep ++ post /\
  forall pre' post', s = pre' ++ sep ++ post' -> length pre <= length pre'.

Section specification.
Context `{!XmlPkg, !TimePkg, !HtmlPkg}.

(** Markup Repair: the outcome the specification gives for each way the
    parse, the serialization and the search for the two body markers can
    go. *)
Inductive MarkupRepair (wild : bytes) : Outcome bytes -> Prop :=
  | repair_parse_failed e :
      html_Parse wild = inr e ->
      MarkupRepair wild (Returned (escapeBytes wild))
  | repair_render_failed n e :
      html_Parse wild = inl n ->
      html_Render n = Returned (inr e) ->
      MarkupRepair wild (Returned (escapeBytes wild))
  | repair_too_large n :
      html_Parse wild = inl n ->
      html_Render n = Panicked ErrTooLarge ->
      MarkupRepair wild (Returned (escapeBytes wild))
  | repair_defect n v :
      html_Parse wild = inl n ->
      html_Render n = Panicked v ->
      v <> ErrTooLarge ->
      MarkupRepair wild (Panicked v)
  | repair_no_open n out :
      html_Parse wild = inl n ->
      html_Render n = Returned (inl out) ->
      Absent openBody out ->
      MarkupRepair wild (Returned (escapeBytes wild))
  | repair_no_close n out pre rest :
      html_Parse wild = inl n ->
      html_Render n = Returned (inl out) ->
      FirstAt openBody out pre rest ->
      Absent closeBody rest ->
      MarkupRepair wild (Returned (escapeBytes wild))
  | repair_body n out pre mid post :
      html_Parse wild = inl n ->
      html_Render n = Returned (inl out) ->
      FirstAt openBody out pre (mid ++ closeBody ++ post) ->
      FirstAt closeBody (mid ++ closeBody ++ post) mid post ->
      MarkupRepair wild (Returned mid).

(** The renderer panics with [bytes.ErrTooLarge] only. *)
Definition renders_safely : Prop :=
  forall n v, html_Render n = Panicked v -> v = ErrTooLarge.

(** Timestamp Resolution, as the specification words it: the empty
    string is the zero instant; otherwise the four patterns are tried in
    this order and the first that matches gives the instant; otherwise
    the zero instant and [ErrBadTime] with the string. *)
Definition rssTime_reference (s : string) : Time * option error :=
  match s with
  | EmptyString => (Time_zero, None)
  | _ =>
    match time_Parse "Mon, 2 Jan 2006 15:04:05 -0700" s with
    | Some t => (t, None)
    | None =>
      match time_Parse "Mon, 2 Jan 2006 15:04:05 MST" s with
      | Some t => (t, None)
      | None =>
        match time_Parse "Mon, 2 Jan 06 15:04:05 -0700" s with
        | Some t => (t, None)
        | None =>
          match time_Parse "02 January 2006" s with
          | Some t => (t, None)
          | None => (Time_zero, Some (ErrBadTime s))
          end
        end
      end
    end
  end.

(** [layout] is the first of the recognized formats that matches [s],
    and gives [t]. *)
Definition resolves_by (layout s : string) (t : Time) : Prop :=
  exists before after,
    rssTimeFormats = before ++ layout :: after /\
    Forall (fun g => time_Parse g s = None) before /\
    time_Parse layout s = Some t.

(** [s] is in a recognized format, which gives [t]. *)
Definition resolves (s : string) (t : Time) : Prop :=
  exists layout, resolves_by layout s t.

(** [s] is not empty and no recognized format matches it. *)
Definition unparsable (s : string) : Prop :=
  s <> "" /\ Forall (fun g => time_Parse g s = None) rssTimeFormats.

(** The instant a date string stands for in the result: the one its
    format gives, and the zero instant when the string is empty or
    unparsable. *)
Definition resolved (s : string) (t : Time) : Prop :=
  (s = "" /\ t = Time_zero) \/
  (s <> "" /\ resolves s t) \/
  (unparsable s /\ t = Time_zero).

(** The date strings of an RSS document in the order they are resolved:
    the channel's, then each item's in document order. *)
Definition dates (r : rss) : list string :=
  rss_Updated r :: map rssItem_Updated (rss_Items r).

(** [s] is the first unparsable string of [ds]. *)
Definition first_unparsable (ds : list string) (s : string) : Prop :=
  exists before after,
    ds = before ++ s :: after /\
    Forall (fun s' => ~ unparsable s') before /\
    unparsable s.

(** The error a run over the date strings [ds] ends with, by the
    specification: none when no string is unparsable, and [ErrBadTime]
    with the first unparsable string otherwise. *)
Definition first_failure (ds : list string) (err : option error) : Prop :=
  (err = None /\ Forall (fun s => ~ unparsable s) ds) \/
  (exists s, err = Some (ErrBadTime s) /\ first_unparsable ds s).

(** An entry populated from an RSS item. *)
Definition entry_of_item (it : rssItem) (e : Entry) : Prop :=
  Entry_Title e = rssItem_Title it /\
  Entry_Link e = rssItem_Link it /\
  fixHtml (rssItem_Description it) = Returned (Entry_Summary e) /\
  fixHtml (rssContent_Data (rssItem_Content it)) = Returned (Entry_Content e) /\
  resolved (rssItem_Updated it) (Entry_When e).

(** A feed populated from an RSS channel: one entry per item, in
    document order. *)
Definition rss_populated (r : rss) (f : Feed) : Prop :=
  Feed_Title f = rss_Title r /\
  Feed_Link f = rss_Link r /\
  resolved (rss_Updated r) (Feed_Updated f) /\
  Forall2 entry_of_item (rss_Items r) (Feed_Entries f).

(** [href] is the canonical link among [links]: the href of the first
    link whose rel is unset or "alternate", and empty without one. *)
Definition canonical (l : atomLink) : Prop :=
  atomLink_Rel l = "" \/ atomLink_Rel l = "alternate".

Definition canonical_link (links : list atomLink) (href : string) : Prop :=
  (exists before l after,
     links = before ++ l :: after /\
     Forall (fun l' => ~ canonical l') before /\
     canonical l /\ href = atomLink_Href l) \/
  (Forall (fun l' => ~ canonical l') links /\ href = "").

(** The bytes Markup Repair is given for an Atom content element. *)
Definition content_source (c : atomContent) : bytes :=
  if decide (atomContent_Type c = "xhtml") then atomContent_Contents c
  else bytes_of_string
         (html_UnescapeString (string_of_bytes (atomContent_Contents c))).

(** The content of an entry: from the first content element, and empty
    without one. *)
Definition content_of (contents : list atomContent) (content : bytes) : Prop :=
  match contents with
  | [] => content = []
  | c :: _ => fixHtml (content_source c) = Returned content
  end.

(** An entry populated from an Atom entry, as [atomFeed] does it: the
    link is the href of the one [atomLink] the entry was decoded into. *)
Definition entry_of_atomEntry (ent : atomEntry) (e : Entry) : Prop :=
  Entry_Title e = atomEntry_Title ent /\
  Entry_Link e = atomLink_Href (atomEntry_Link ent) /\
  fixHtml (atomEntry_Summary ent) = Returned (Entry_Summary e) /\
  content_of (atomEntry_Content ent) (Entry_Content e) /\
  Entry_When e = atomEntry_Updated ent.

Definition atom_populated (a : feed) (f : Feed) : Prop :=
  Feed_Title f = feed_Title a /\
  canonical_link (feed_Links a) (Feed_Link f) /\
  Feed_Updated f = feed_Updated a /\
  Forall2 entry_of_atomEntry (feed_Entries a) (Feed_Entries f).

(** The results the decode entry point may return for the input [r]. *)
Inductive ReadResult (r : bytes) : Feed * option error -> Prop :=
  | read_fatal e :
      xml_Decode r = inr e ->
      ReadResult r (Feed_zero, Some (XmlError e))
  | read_bad_time d f s :
      xml_Decode r = inl d ->
      rss_Title (feed_Rss d) <> "" ->
      first_unparsable (dates (feed_Rss d)) s ->
      rss_populated (feed_Rss d) f ->
      ReadResult r (f, Some (ErrBadTime s))
  | read_rss d f :
      xml_Decode r = inl d ->
      rss_Title (feed_Rss d) <> "" ->
      Forall (fun s => ~ unparsable s) (dates (feed_Rss d)) ->
      rss_populated (feed_Rss d) f ->
      ReadResult r (f, None)
  | read_atom d f :
      xml_Decode r = inl d ->
      rss_Title (feed_Rss d) = "" ->
      atom_populated d f ->
      ReadResult r (f, None).

End specification.

(** 2006-01-02T15:04:05-07:00 *)
Definition reference_instant : Time :=
  {| Time_sec := 63271836245; Time_nsec := 0; Time_offset := -25200 |}.

(** ** An instance of the [time] interface

    [GoTime.Parse] follows Go's [time.Parse] on the layout elements the
    four layouts of [rssTimeFormats] are made of; the local time zone is
    UTC, and of the zone abbreviations only the runs of upper-case
    letters are read (not "GMT+3", "ChST" or "+03").  It is what the
    theorems about [rssTime] are run on. *)
Module GoTime.

Local Open Scope char_scope.
Local Open Scope Z_scope.

Definition isLeap (year : Z) : bool :=
  ((year mod 4 =? 0) && negb (year mod 100 =? 0)) || (year mod 400 =? 0).

(** [daysBefore[m]]: the days of a year that is not leap before the end
    of month [m] (0..12). *)
Definition daysBefore (m : Z) : Z :=
  nth (Z.to_nat m)
    [0; 31; 59; 90; 120; 151; 181; 212; 243; 273; 304; 334; 365] 0.

Definition daysIn (month year : Z) : Z :=
  if (month =? 2) && isLeap year then 29
  else daysBefore month - daysBefore (month - 1).

(** Days from 0001-01-01 to the given civil date. *)
Definition daysSinceEpoch (year month day : Z) : Z :=
  let y := year - 1 in
  365 * y + y / 4 - y / 100 + y / 400
  + daysBefore (month - 1)
  + (if (2 <? month) && isLeap year then 1 else 0)
  + (day - 1).

(** [time.Date(year, month, day, hour, min, sec, nsec, loc)] for a
    location [offset] seconds east of UTC. *)
Definition Date (year month day hour min sec nsec offset : Z) : Time :=
  {| Time_sec := daysSinceEpoch year month day * 86400
                 + hour * 3600 + min * 60 + sec - offset;
     Time_nsec := nsec;
     Time_offset := offset |}.

(** The elements of a layout. *)
Inductive chunk : Type :=
  | Lit (c : ascii)
  | LitSpaces
  | stdWeekDay | stdLongWeekDay
  | stdMonth | stdLongMonth | stdZeroMonth
  | stdDay | stdZeroDay
  | stdLongYear | stdYear
  | stdHour | stdZeroMinute | stdZeroSecond
  | stdNumTZ | stdTZ.

Definition isLower (c : ascii) : bool :=
  (97 <=? Z.of_nat (nat_of_ascii c)) && (Z.of_nat (nat_of_ascii c) <=? 122).
Definition isUpper (c : ascii) : bool :=
  (65 <=? Z.of_nat (nat_of_ascii c)) && (Z.of_nat (nat_of_ascii c) <=? 90).
Definition isDigit (c : ascii) : bool :=
  (48 <=? Z.of_nat (nat_of_ascii c)) && (Z.of_nat (nat_of_ascii c) <=? 57).
Definition digit (c : ascii) : Z := Z.of_nat (nat_of_ascii c) - 48.

Fixpoint takeWhile {A} (p : A -> bool) (l : list A) : list A :=
  match l with
  | x :: l' => if p x then x :: takeWhile p l' else []
  | [] => []
  end.

Fixpoint dropWhile {A} (p : A -> bool) (l : list A) : list A :=
  match l with
  | x :: l' => if p x then dropWhile p l' else l
  | [] => []
  end.

(** [cutspace]: without the leading spaces. *)
Definition cutspace (s : list ascii) : list ascii :=
  dropWhile (fun c => bool_decide (c = " ")) s.

Definition startsWithLowerCase (s : list ascii) : bool :=
  match s with c :: _ => isLower c | [] => false end.

(** [nextStdChunk], applied until the layout is used up. *)
Fixpoint chunks (fuel : nat) (layout : list ascii) : list chunk :=
  match fuel with
  | O => []
  | S fuel =>
    match layout with
    | [] => []
    | "J" :: "a" :: "n" :: "u" :: "a" :: "r" :: "y" :: l => stdLongMonth :: chunks fuel l
    | "J" :: "a" :: "n" :: l =>
        if startsWithLowerCase l then Lit "J" :: chunks fuel ("a" :: "n" :: l)
        else stdMonth :: chunks fuel l
    | "M" :: "o" :: "n" :: "d" :: "a" :: "y" :: l => stdLongWeekDay :: chunks fuel l
    | "M" :: "o" :: "n" :: l =>
        if startsWithLowerCase l then Lit "M" :: chunks fuel ("o" :: "n" :: l)
        else stdWeekDay :: chunks fuel l
    | "M" :: "S" :: "T" :: l => stdTZ :: chunks fuel l
    | "0" :: "1" :: l => stdZeroMonth :: chunks fuel l
    | "0" :: "2" :: l => stdZeroDay :: chunks fuel l
    | "0" :: "4" :: l => stdZeroMinute :: chunks fuel l
    | "0" :: "5" :: l => stdZeroSecond :: chunks fuel l
    | "0" :: "6" :: l => stdYear :: chunks fuel l
    | "1" :: "5" :: l => stdHour :: chunks fuel l
    | "2" :: "0" :: "0" :: "6" :: l => stdLongYear :: chunks fuel l
    | "2" :: l => stdDay :: chunks fuel l
    | "-" :: "0" :: "7" :: "0" :: "0" :: l => stdNumTZ :: chunks fuel l
    | " " :: l =>
        LitSpaces :: chunks fuel (cutspace l)
    | c :: l => Lit c :: chunks fuel l
    end
  end.

Definition shortDayNames : list string :=
  ["Sun"; "Mon"; "Tue"; "Wed"; "Thu"; "Fri"; "Sat"]%string.
Definition longDayNames : list string :=
  ["Sunday"; "Monday"; "Tuesday"; "Wednesday"; "Thursday"; "Friday"; "Saturday"]%string.
Definition shortMonthNames : list string :=
  ["Jan"; "Feb"; "Mar"; "Apr"; "May"; "Jun"; "Jul"; "Aug"; "Sep"; "Oct"; "Nov"; "Dec"]%string.
Definition longMonthNames : list string :=
  ["January"; "February"; "March"; "April"; "May"; "June"; "July"; "August";
   "September"; "October"; "November"; "December"]%string.

Definition toLower (c : ascii) : ascii :=
  if isUpper c then ascii_of_nat (nat_of_ascii c + 32) else c.

(** [match]: equal, ignoring the case of ASCII letters. *)
Fixpoint matchFold (name val : list ascii) : option (list ascii) :=
  match name, val with
  | [], rest => Some rest
  | _ :: _, [] => None
  | a :: name', b :: val' =>
      if bool_decide (toLower a = toLower b) then matchFold name' val' else None
  end.

(** [lookup(tab, val)]: the index of the first name [val] begins with. *)
Fixpoint lookup (i : Z) (tab : list string) (val : list ascii)
    : option (Z * list ascii) :=
  match tab with
  | [] => None
  | name :: tab' =>
      match matchFold (list_ascii_of_string name) val with
      | Some rest => Some (i, rest)
      | None => lookup (i + 1) tab' val
      end
  end.

(** [getnum(s, fixed)]: one or two digits, two when [fixed]. *)
Definition getnum (s : list ascii) (fixed : bool) : option (Z * list ascii) :=
  match s with
  | a :: b :: rest =>
      if isDigit a then
        if isDigit b then Some (digit a * 10 + digit b, rest)
        else if fixed then None else Some (digit a, b :: rest)
      else None
  | [a] => if isDigit a && negb fixed then Some (digit a, []) else None
  | [] => None
  end.

Fixpoint digits (acc : Z) (s : list ascii) : option Z :=
  match s with
  | [] => Some acc
  | c :: s' => if isDigit c then digits (acc * 10 + digit c) s' else None
  end.

(** [atoi]: an optional sign, then digits to the end. *)
Definition atoi (s : list ascii) : option Z :=
  match s with
  | "-" :: d => option_map Z.opp (digits 0 d)
  | "+" :: d => digits 0 d
  | _ => digits 0 s
  end.

(** What [Parse] has read so far. *)
Record fields : Type := mkFields {
  f_year : Z; f_month : Z; f_day : Z;
  f_hour : Z; f_min : Z; f_sec : Z; f_nsec : Z;
  f_zoneOffset : option Z
}.

Definition fields0 : fields := mkFields 0 1 1 0 0 0 0 None.

(** The fraction [Parse] accepts after the seconds when the layout has
    none: a period or comma and digits, of which nine count. *)
Definition fraction (val : list ascii) : Z * list ascii :=
  match val with
  | p :: d :: _ =>
      if (bool_decide (p = ".") || bool_decide (p = ",")) && isDigit d then
        let ds := takeWhile (fun c => isDigit c) (tail val) in
        let ds9 := take 9 ds in
        (default 0 (digits 0 ds9) * 10 ^ (9 - Z.of_nat (length ds9)),
         drop (length ds) (tail val))
      else (0, val)
  | _ => (0, val)
  end.

(** [parseTimeZone]: the length of the zone abbreviation [val] begins
    with: three upper-case letters, or four or five ending in T. *)
Definition parseTimeZone (val : list ascii) : option nat :=
  let n := length (takeWhile (fun c => isUpper c) val) in
  match n with
  | 3%nat => Some n
  | 4%nat | 5%nat =>
      if bool_decide (nth (n - 1) val " " = "T") then Some n else None
  | _ => None
  end.

(** One element of the layout read off the value. *)
Definition step (c : chunk) (st : fields * list ascii)
    : option (fields * list ascii) :=
  let '(f, val) := st in
  let set_year y := mkFields y (f_month f) (f_day f) (f_hour f) (f_min f) (f_sec f) (f_nsec f) (f_zoneOffset f) in
  let set_month m := mkFields (f_year f) m (f_day f) (f_hour f) (f_min f) (f_sec f) (f_nsec f) (f_zoneOffset f) in
  let set_day d := mkFields (f_year f) (f_month f) d (f_hour f) (f_min f) (f_sec f) (f_nsec f) (f_zoneOffset f) in
  let set_hour h := mkFields (f_year f) (f_month f) (f_day f) h (f_min f) (f_sec f) (f_nsec f) (f_zoneOffset f) in
  let set_min m := mkFields (f_year f) (f_month f) (f_day f) (f_hour f) m (f_sec f) (f_nsec f) (f_zoneOffset f) in
  let set_sec s ns := mkFields (f_year f) (f_month f) (f_day f) (f_hour f) (f_min f) s ns (f_zoneOffset f) in
  let set_zone z := mkFields (f_year f) (f_month f) (f_day f) (f_hour f) (f_min f) (f_sec f) (f_nsec f) (Some z) in
  match c with
  | Lit a =>
      match val with
      | b :: rest => if bool_decide (a = b) then Some (f, rest) else None
      | [] => None
      end
  | LitSpaces =>
      match val with
      | b :: _ =>
          if bool_decide (b = " ")
          then Some (f, cutspace val)
          else None
      | [] => Some (f, [])
      end
  | stdWeekDay => '(_, rest) ← lookup 0 shortDayNames val; Some (f, rest)
  | stdLongWeekDay => '(_, rest) ← lookup 0 longDayNames val; Some (f, rest)
  | stdMonth => '(m, rest) ← lookup 1 shortMonthNames val; Some (set_month m, rest)
  | stdLongMonth => '(m, rest) ← lookup 1 longMonthNames val; Some (set_month m, rest)
  | stdZeroMonth =>
      '(m, rest) ← getnum val true;
      if (m <=? 0) || (12 <? m) then None else Some (set_month m, rest)
  | stdDay => '(d, rest) ← getnum val false; Some (set_day d, rest)
  | stdZeroDay => '(d, rest) ← getnum val true; Some (set_day d, rest)
  | stdLongYear =>
      match val with
      | a :: _ :: _ :: _ :: _ =>
          if isDigit a then y ← atoi (take 4 val); Some (set_year y, drop 4 val)
          else None
      | _ => None
      end
  | stdYear =>
      match val with
      | _ :: _ :: _ =>
          y ← atoi (take 2 val);
          Some (set_year (if 69 <=? y then y + 1900 else y + 2000), drop 2 val)
      | _ => None
      end
  | stdHour =>
      '(h, rest) ← getnum val false;
      if (h <? 0) || (24 <=? h) then None else Some (set_hour h, rest)
  | stdZeroMinute =>
      '(m, rest) ← getnum val true;
      if (m <? 0) || (60 <=? m) then None else Some (set_min m, rest)
  | stdZeroSecond =>
      '(s, rest) ← getnum val true;
      if (s <? 0) || (60 <=? s) then None
      else let '(ns, rest) := fraction rest in Some (set_sec s ns, rest)
  | stdNumTZ =>
      match val with
      | sign :: h1 :: h2 :: m1 :: m2 :: rest =>
          '(hr, _) ← getnum [h1; h2] true;
          '(mm, _) ← getnum [m1; m2] true;
          if (24 <? hr) || (60 <? mm) then None else
          let off := (hr * 60 + mm) * 60 in
          if bool_decide (sign = "+") then Some (set_zone off, rest)
          else if bool_decide (sign = "-") then Some (set_zone (- off), rest)
          else None
      | _ => None
      end
  | stdTZ =>
      match val with
      | "U" :: "T" :: "C" :: rest => Some (f, rest)
      | _ => n ← parseTimeZone val; Some (f, drop n val)
      end
  end.

Fixpoint steps (cs : list chunk) (st : fields * list ascii)
    : option (fields * list ascii) :=
  match cs with
  | [] => Some st
  | c :: cs' => st' ← step c st; steps cs' st'
  end.

(** [time.Parse(layout, value)].  A zone abbreviation that is not the
    local zone's is recorded with a zero offset, as Go does. *)
Definition Parse (layout value : string) : option Time :=
  let l := list_ascii_of_string layout in
  '(f, rest) ← steps (chunks (S (length l)) l) (fields0, list_ascii_of_string value);
  match rest with
  | _ :: _ => None
  | [] =>
      if (f_day f <? 1) || (daysIn (f_month f) (f_year f) <? f_day f) then None
      else Some (Date (f_year f) (f_month f) (f_day f)
                      (f_hour f) (f_min f) (f_sec f) (f_nsec f)
                      (default 0 (f_zoneOffset f)))
  end.

End GoTime.

#[local] Instance go_time : TimePkg := {| time_Parse := GoTime.Parse |}.

(** ** An instance of the [html] interface

    A parser that keeps the bytes as they are and a renderer that puts
    them in the document [html.Render] writes around a body, with the
    five characters [html.EscapeString] escapes.  The renderer is a
    parameter, for the runs in which it fails or panics. *)
Module SampleHtml.

Local Open Scope char_scope.

Definition quote : ascii := ascii_of_nat 34.

(** [html.EscapeString]: the characters <, >, &, ' and the double quote. *)
Fixpoint EscapeString (s : string) : string :=
  match s with
  | EmptyString => EmptyString
  | String c s' =>
      (if bool_decide (c = "&") then "&amp;"
       else if bool_decide (c = "'") then "&#39;"
       else if bool_decide (c = "<") then "&lt;"
       else if bool_decide (c = ">") then "&gt;"
       else if bool_decide (c = quote) then "&#34;"
       else String c EmptyString)
      +:+ EscapeString s'
  end.

(** [html.UnescapeString], for the entities of <, > and &. *)
Fixpoint UnescapeString (s : string) : string :=
  match s with
  | String "&" (String "l" (String "t" (String ";" s'))) =>
      String "<" (UnescapeString s')
  | String "&" (String "g" (String "t" (String ";" s'))) =>
      String ">" (UnescapeString s')
  | String "&" (String "a" (String "m" (String "p" (String ";" s')))) =>
      String "&" (UnescapeString s')
  | String c s' => String c (UnescapeString s')
  | EmptyString => EmptyString
  end.

Definition document (body : bytes) : bytes :=
  bytes_of_string "<html><head></head><body>" ++ body
  ++ bytes_of_string "</body></html>".

Definition pkg (render : bytes -> Outcome (bytes + string)) : HtmlPkg :=
  {| Node := bytes;
     html_error := string;
     html_Parse := fun b => inl b;
     html_Render := render;
     html_EscapeString := EscapeString;
     html_UnescapeString := UnescapeString |}.

End SampleHtml.

#[local] Instance sample_html : HtmlPkg :=
  SampleHtml.pkg (fun n => Returned (inl (SampleHtml.document n))).

(** The fragment of the specification's scenario. *)
Definition hello : bytes := bytes_of_string "<p>hello</p>".

(** ** An instance of the [xml] interface

    [encoding/xml] on three sample documents, and the rule by which it
    fills a field from several elements of one name. *)
Module SampleXml.

(** An element's attributes, by name. *)
Abbreviation attrs := (list (string * string)).

Fixpoint attr (name : string) (a : attrs) : option string :=
  match a with
  | [] => None
  | (n, v) :: a' => if decide (n = name) then Some v else attr name a'
  end.

(** Unmarshalling a start element into an [atomLink]: each field
    tagged [,attr] takes the attribute of its name if the element has
    it, and keeps its value if not. *)
Definition unmarshal_atomLink (v : atomLink) (a : attrs) : atomLink :=
  {| atomLink_Rel := default (atomLink_Rel v) (attr "rel" a);
     atomLink_Href := default (atomLink_Href v) (attr "href" a) |}.

(** A slice field ([feed.Links]) gets a new element for each [link]
    element, in document order. *)
Definition unmarshal_Links (links : list attrs) : list atomLink :=
  map (unmarshal_atomLink (mkAtomLink "" "")) links.

(** A struct field ([atomEntry.Link]) is the one value every [link]
    element of the entry is unmarshalled into, in document order. *)
Definition unmarshal_Link (links : list attrs) : atomLink :=
  foldl unmarshal_atomLink (mkAtomLink "" "") links.

Definition rss_doc : string :=
  "<rss><channel><title>News</title><link>http://example.org/</link>" +:+
  "<pubDate>Mon, 2 Jan 2006 15:04:05 -0700</pubDate>" +:+
  "<item><title>First</title><link>http://example.org/1</link>" +:+
  "<description>&lt;b&gt;hi&lt;/b&gt;</description>" +:+
  "<pubDate>02 January 2006</pubDate></item>" +:+
  "<item><title>Second</title><link>http://example.org/2</link>" +:+
  "<description>plain</description>" +:+
  "<pubDate>yesterday</pubDate></item>" +:+
  "<item><title>Third</title><link>http://example.org/3</link>" +:+
  "<pubDate>tomorrow</pubDate></item></channel></rss>".

Definition rss_items : list rssItem :=
  [ mkRssItem "First" "http://example.org/1" (bytes_of_string "<b>hi</b>")
      (mkRssContent []) "02 January 2006";
    mkRssItem "Second" "http://example.org/2" (bytes_of_string "plain")
      (mkRssContent []) "yesterday";
    mkRssItem "Third" "http://example.org/3" [] (mkRssContent []) "tomorrow" ].

Definition rss_decoded : feed :=
  mkfeed "" [] Time_zero [] "" []
    (mkRss "News" "http://example.org/" [] rss_items
       "Mon, 2 Jan 2006 15:04:05 -0700").

(** The same channel with the second and third items' dates left out. *)
Definition rss_dated_doc : string :=
  "<rss><channel><title>News</title><link>http://example.org/</link>" +:+
  "<pubDate>Mon, 2 Jan 2006 15:04:05 -0700</pubDate>" +:+
  "<item><title>First</title><link>http://example.org/1</link>" +:+
  "<description>&lt;b&gt;hi&lt;/b&gt;</description>" +:+
  "<pubDate>02 January 2006</pubDate></item>" +:+
  "<item><title>Second</title><link>http://example.org/2</link>" +:+
  "<description>plain</description></item></channel></rss>".

Definition rss_dated_decoded : feed :=
  mkfeed "" [] Time_zero [] "" []
    (mkRss "News" "http://example.org/" []
       [ mkRssItem "First" "http://example.org/1" (bytes_of_string "<b>hi</b>")
           (mkRssContent []) "02 January 2006";
         mkRssItem "Second" "http://example.org/2" (bytes_of_string "plain")
           (mkRssContent []) "" ]
       "Mon, 2 Jan 2006 15:04:05 -0700").

Definition post_links : list attrs :=
  [ [("href", "http://example.org/post")];
    [("rel", "self"); ("href", "http://example.org/post.atom")] ].

Definition atom_doc : string :=
  "<feed><title>Blog</title>" +:+
  "<link rel='self' href='http://example.org/feed.atom'/>" +:+
  "<link href='http://example.org/'/>" +:+
  "<updated>2006-01-02T15:04:05-07:00</updated>" +:+
  "<entry><title>Post</title>" +:+
  "<link href='http://example.org/post'/>" +:+
  "<link rel='self' href='http://example.org/post.atom'/>" +:+
  "<updated>2006-01-02T15:04:05-07:00</updated>" +:+
  "<summary>short</summary>" +:+
  "<content type='html'>&lt;p&gt;hello&lt;/p&gt;</content>" +:+
  "<content type='xhtml'><p>ignored</p></content>" +:+
  "</entry></feed>".

Definition atom_decoded : feed :=
  mkfeed "Blog"
    (unmarshal_Links
       [ [("rel", "self"); ("href", "http://example.org/feed.atom")];
         [("href", "http://example.org/")] ])
    (GoTime.Date 2006 1 2 15 4 5 0 (-25200)) [] ""
    [ mkAtomEntry "Post" (unmarshal_Link post_links) ""
        (GoTime.Date 2006 1 2 15 4 5 0 (-25200)) []
        (bytes_of_string "short")
        [ mkAtomContent "html" (bytes_of_string "&lt;p&gt;hello&lt;/p&gt;");
          mkAtomContent "xhtml" (bytes_of_string "<p>ignored</p>") ] ]
    (mkRss "" "" [] [] "").

(** A document that ends inside the channel. *)
Definition broken_doc : string := "<rss><channel><title>News".

Definition Decode (r : bytes) : feed + string :=
  if decide (r = bytes_of_string rss_doc) then inl rss_decoded
  else if decide (r = bytes_of_string rss_dated_doc) then inl rss_dated_decoded
  else if decide (r = bytes_of_string atom_doc) then inl atom_decoded
  else inr "XML syntax error: unexpected EOF".

End SampleXml.

#[local] Instance sample_xml : XmlPkg :=
  {| xml_error := string; xml_Decode := SampleXml.Decode |}.

(** ** The rest of [webfeed.go] *)

(** [(e ErrBadTime) Error()] *)
Definition ErrBadTime_Error (e : string) : string :=
  "Unable to parse time: " +:+ e.

(** The channel [r] with the items [more] after its own. *)
Definition rss_with_more (r : rss) (more : list rssItem) : rss :=
  {| rss_Title := rss_Title r; rss_Link := rss_Link r;
     rss_Description := rss_Description r;
     rss_Items := rss_Items r ++ more;
     rss_Updated := rss_Updated r |}.

(** An [html] package whose renderer panics with a value of its own. *)
Definition defective_html : HtmlPkg :=
  SampleHtml.pkg (fun _ => Panicked (PanicOther "html: defect")).

(** A well-formed fragment with the bytes of the closing marker in a
    comment. *)
Definition comment_fragment : bytes := bytes_of_string "x<!--</body>-->y".

(** What [html.Render] writes for a comment: its text as it is, between
    the two delimiters; and a comment the input leaves open is closed
    where the input ends. *)
Definition render_comments (n : bytes) : Outcome (bytes + string) :=
  if decide (n = bytes_of_string "x<!--")
  then Returned (inl (SampleHtml.document (bytes_of_string "x<!---->")))
  else Returned (inl (SampleHtml.document n)).

Definition comment_html : HtmlPkg := SampleHtml.pkg render_comments.

(** An RSS document whose channel has an empty title, and
    [encoding/xml] on it. *)
Module UntitledRss.

Definition doc : string :=
  "<rss version='2.0'><channel><title></title>" +:+
  "<link>http://example.org/</link>" +:+
  "<item><title>Only</title><link>http://example.org/only</link>" +:+
  "<pubDate>02 January 2006</pubDate></item></channel></rss>".

Definition decoded : feed :=
  mkfeed "" [] Time_zero [] "" []
    (mkRss "" "http://example.org/" []
       [ mkRssItem "Only" "http://example.org/only" [] (mkRssContent [])
           "02 January 2006" ]
       "").

Definition Decode (r : bytes) : feed + string :=
  if decide (r = bytes_of_string doc) then inl decoded
  else inr "XML syntax error: unexpected EOF".

Definition xml : XmlPkg := {| xml_error := string; xml_Decode := Decode |}.

End UntitledRss.

(** * feedme: the web application of [feedme.go]

    Its functions that compute: the order the feed list is sorted by,
    the walk over an OPML outline, and the message of an error list. *)
Module feedme.

(** [strings]: [ToLower], [TrimSpace] and [Split]. *)
Class StringsPkg : Type := {
  strings_ToLower : string -> string;
  strings_TrimSpace : string -> string;
  strings_Split : string -> string -> list string
}.

(** The Go interface [error]: a value with a message. *)
Class ErrorIface (E : Type) : Type := {
  Error : E -> string
}.

(** [len(s)] for a string: its bytes. *)
Definition len_string (s : string) : Z := Z.of_nat (String.length s).

(** The value of a run-time panic for an index that is out of range. *)
Definition index_out_of_range : PanicValue :=
  PanicOther "runtime error: index out of range".

(** [u[i]] *)
Definition index {A} (u : list A) (i : Z) : Outcome A :=
  if (i <? 0)%Z then Panicked index_out_of_range
  else match u !! Z.to_nat i with
       | Some x => Returned x
       | None => Panicked index_out_of_range
       end.

Record feedListEntry : Type := mkFeedListEntry {
  feedListEntry_Title : string;
  feedListEntry_Url : string;
  feedListEntry_LastFetch : Time;
  feedListEntry_EncodedKey : string
}.

(** [feedList]: a slice of entries, with the methods of
    [sort.Interface]. *)
Abbreviation feedList := (list feedListEntry).

Definition Len (u : feedList) : Z := len u.

Definition Less `{!StringsPkg} (u : feedList) (i j : Z) : Outcome bool :=
  a ← index u i;
  b ← index u j;
  mret (String.ltb (strings_ToLower (feedListEntry_Title a))
                   (strings_ToLower (feedListEntry_Title b))).

(** [u[i], u[j] = u[j], u[i]]: both operands are read, then both
    elements are written; the result is the slice after that. *)
Definition Swap (u : feedList) (i j : Z) : Outcome feedList :=
  b ← index u j;
  a ← index u i;
  mret (<[Z.to_nat j := a]> (<[Z.to_nat i := b]> u)).

(** [Outline]: an outline element of an OPML document, with the
    outlines inside it, as the decoder builds them. *)
#[warnings="-register-all"]
Inductive Outline : Type :=
  | mkOutline (XmlURL : string) (Outlines : list Outline).

Definition Outline_XmlURL (r : Outline) : string :=
  match r with mkOutline url _ => url end.
Definition Outline_Outlines (r : Outline) : list Outline :=
  match r with mkOutline _ kids => kids end.

Fixpoint opmlWalk (r : Outline) (urls : list string) : list string :=
  match r with
  | mkOutline XmlURL Outlines =>
      let urls := if decide (XmlURL <> "") then urls ++ [XmlURL] else urls in
      (fix kids (Outlines : list Outline) (urls : list string) : list string :=
         match Outlines with
         | [] => urls
         | kid :: Outlines' => kids Outlines' (urls ++ opmlWalk kid [])
         end) Outlines urls
  end.

(** The character a line ends with. *)
Definition newline : ascii := "010"%char.

(** [errorList.Error]: the loop over the errors still to add, with the
    string built so far. *)
Fixpoint errorList_Error_loop `{!ErrorIface E} (es : list E) (s : string)
    : string :=
  match es with
  | [] => s
  | e :: es' => errorList_Error_loop es' (s +:+ (Error e +:+ String newline ""))
  end.

Definition errorList_Error `{!ErrorIface E} (es : list E) : string :=
  errorList_Error_loop es "".

(** The outlines of a tree in document order: an outline, then the
    outlines inside it, from first to last. *)
Fixpoint preorder (r : Outline) : list Outline :=
  r :: match r with
       | mkOutline _ kids => concat (map preorder kids)
       end.

(** [i] is an index of [u]. *)
Definition in_range {A} (u : list A) (i : Z) : Prop :=
  (0 <= i < len u)%Z.

(** No line end in [s]. *)
Fixpoint one_line (s : string) : Prop :=
  match s with
  | EmptyString => True
  | String c s' => c <> newline /\ one_line s'
  end.

End feedme.

(** * feedme: the handlers of [feedme.go]

    A handler reaches the datastore, the task queue, the network and the
    functions of the package's other files through its
    [appengine.Context].  What these answer is not in this file, so the
    model takes it as given: the world is the calls made so far, and
    each call's answer is any function of the world it is made in. *)
Module handlers.
Import feedme.

(** The types of the datastore and of the package's other files, with
    what this file reads of them. *)
Class AppTypes : Type := {
  (** [*datastore.Key], with [StringID()] and [Encode()] *)
  Key : Type;
  Key_StringID : Key -> string;
  Key_Encode : Key -> string;
  (** [datastore.NewKey(c, kind, stringID, 0, nil)] *)
  datastore_NewKey : string -> string -> Key;
  (** [FeedInfo], with its field [Url] *)
  FeedInfo : Type;
  FeedInfo_Url : FeedInfo -> string;
  Article : Type;
  (** An [error] that a library or another file returns, its [Error()],
      and whether it is [datastore.Done]. *)
  lib_error : Type;
  lib_Error : lib_error -> string;
  is_Done : lib_error -> bool;
  (** The constant [feedKind]. *)
  feedKind : string;
  (** The order in which [range] visits the keys of a map. *)
  range_order : gmap string bool -> list string;
  (** [xml.NewDecoder(f).Decode(&b)], for the body of an OPML file. *)
  opml_Decode : bytes -> Outline + lib_error
}.

Section handlers.
Context `{!StringsPkg, !AppTypes}.

(** [UserInfo], with its field [Feeds]. *)
Record UserInfo : Type := mkUserInfo {
  UserInfo_Feeds : list Key
}.

(** An [error] of this file: one made by [fmt.Errorf], or another's. *)
Inductive error : Type :=
  | Errorf (msg : string)
  | LibError (err : lib_error).

#[export] Instance error_iface : ErrorIface error :=
  {| Error e := match e with
                | Errorf msg => msg
                | LibError err => lib_Error err
                end |}.

(** The calls a handler makes through its context. *)
Inductive Call : Type :=
  | call_getUserInfo
  | call_Get (key : Key)
  | call_FeedInfo_articlesSince (f : FeedInfo) (t : Time)
  | call_checkUrl (url : string)
  | call_subscribe (f : FeedInfo)
  | call_unsubscribe (k : Key)
  | call_Next
  | call_Add (path : string) (feed : string).

(** The world: the calls made so far, the latest last. *)
Abbreviation World := (list Call).

(** The answer to each call, in the world it is made in. *)
Class AppReplies : Type := {
  reply_getUserInfo : World -> UserInfo + lib_error;
  reply_Get : World -> Key -> FeedInfo + lib_error;
  reply_FeedInfo_articlesSince :
    World -> FeedInfo -> Time -> list Article + lib_error;
  reply_checkUrl : World -> string -> FeedInfo + lib_error;
  reply_subscribe : World -> FeedInfo -> option lib_error;
  reply_unsubscribe : World -> Key -> option lib_error;
  reply_Next : World -> Key + lib_error;
  reply_Add : World -> string -> string -> option lib_error
}.
Context `{!AppReplies}.

Definition getUserInfo (w : World) : (UserInfo + lib_error) * World :=
  (reply_getUserInfo w, w ++ [call_getUserInfo]).
Definition datastore_Get (key : Key) (w : World)
    : (FeedInfo + lib_error) * World :=
  (reply_Get w key, w ++ [call_Get key]).
Definition FeedInfo_articlesSince (f : FeedInfo) (t : Time) (w : World)
    : (list Article + lib_error) * World :=
  (reply_FeedInfo_articlesSince w f t, w ++ [call_FeedInfo_articlesSince f t]).
Definition checkUrl (url : string) (w : World)
    : (FeedInfo + lib_error) * World :=
  (reply_checkUrl w url, w ++ [call_checkUrl url]).
Definition subscribe (f : FeedInfo) (w : World) : option lib_error * World :=
  (reply_subscribe w f, w ++ [call_subscribe f]).
Definition unsubscribe (k : Key) (w : World) : option lib_error * World :=
  (reply_unsubscribe w k, w ++ [call_unsubscribe k]).
(** [it.Next(nil)] on the iterator of the keys of kind [feedKind]. *)
Definition Iterator_Next (w : World) : (Key + lib_error) * World :=
  (reply_Next w, w ++ [call_Next]).
(** [taskqueue.Add(c, taskqueue.NewPOSTTask(path, {"feed": {feed}}), "")] *)
Definition taskqueue_Add (path feed : string) (w : World)
    : option lib_error * World :=
  (reply_Add w path feed, w ++ [call_Add path feed]).

(** What a handler needs of its [*http.Request]. *)
Record Request : Type := mkRequest {
  Request_Method : string;
  Request_FormValue : string -> string;
  Request_FormFile : string -> bytes + lib_error
}.

(** What a handler does to its [http.ResponseWriter]. *)
Inductive Response : Type :=
  | http_NotFound
  | http_Error (msg : string) (code : Z)
  | http_Redirect (url : string) (code : Z)
  | nothing_written.

Definition StatusFound : Z := 302.
Definition StatusBadRequest : Z := 400.
Definition StatusInternalServerError : Z := 500.

(** The loop of [articlesSince] over the feeds still to read. *)
Fixpoint articlesSince_loop (feeds : list Key) (t : Time)
    (articles : list Article) (errs : list error) (w : World)
    : (list Article * list error) * World :=
  match feeds with
  | [] => ((articles, errs), w)
  | key :: feeds' =>
      let '(r, w) := datastore_Get key w in
      match r with
      | inr err =>
          let err := Errorf (Key_StringID key
                             +:+ ": failed to load from the datastore: "
                             +:+ lib_Error err) in
          articlesSince_loop feeds' t articles (errs ++ [err]) w
      | inl f =>
          let '(r, w) := FeedInfo_articlesSince f t w in
          match r with
          | inr err =>
              let err := Errorf (FeedInfo_Url f
                                 +:+ ": failed to read articles: "
                                 +:+ lib_Error err) in
              articlesSince_loop feeds' t articles (errs ++ [err]) w
          | inl as_ => articlesSince_loop feeds' t (articles ++ as_) errs w
          end
      end
  end.

Definition articlesSince (uinfo : UserInfo) (t : Time) (w : World)
    : (list Article * list error) * World :=
  articlesSince_loop (UserInfo_Feeds uinfo) t [] [] w.

(** The loop of [handleOpml] over the URLs still to subscribe to; it
    ends with the response of the first failure, if there is one. *)
Fixpoint handleOpml_loop (urls : list string) (w : World)
    : option Response * World :=
  match urls with
  | [] => (None, w)
  | url :: urls' =>
      let '(r, w) := checkUrl url w in
      match r with
      | inr err =>
          (Some (http_Error ("failed to check URL " +:+ url +:+ ": "
                             +:+ lib_Error err)
                            StatusInternalServerError), w)
      | inl f =>
          let '(r, w) := subscribe f w in
          match r with
          | Some err =>
              (Some (http_Error ("failed to subscribe " +:+ url +:+ ": "
                                 +:+ lib_Error err)
                                StatusInternalServerError), w)
          | None => handleOpml_loop urls' w
          end
      end
  end.

Definition handleOpml (r : Request) (w : World) : Response * World :=
  if decide (Request_Method r <> "POST") then (http_NotFound, w) else
  match Request_FormFile r "opml" with
  | inr err => (http_Error (lib_Error err) StatusBadRequest, w)
  | inl f =>
      match opml_Decode f with
      | inr err => (http_Error (lib_Error err) StatusBadRequest, w)
      | inl Body =>
          let urls := opmlWalk Body [] in
          let '(failed, w) := handleOpml_loop urls w in
          match failed with
          | Some response => (response, w)
          | None => (http_Redirect "/list" StatusFound, w)
          end
      end
  end.

(** The first loop of [handleUpdate], over the lines of the form still
    to read, with the map [curFeeds] and the errors so far. *)
Fixpoint handleUpdate_urls (urls : list string)
    (curFeeds : gmap string bool) (errs : list error) (w : World)
    : (gmap string bool * list error) * World :=
  match urls with
  | [] => ((curFeeds, errs), w)
  | url :: urls' =>
      let url := strings_TrimSpace url in
      if decide (len_string url = 0%Z)
      then handleUpdate_urls urls' curFeeds errs w
      else if default false (curFeeds !! url)
      then handleUpdate_urls urls' (delete url curFeeds) errs w
      else
        let '(r, w) := checkUrl url w in
        match r with
        | inr err =>
            let err := Errorf ("Failed to read " +:+ url +:+ ": "
                               +:+ lib_Error err) in
            handleUpdate_urls urls' curFeeds (errs ++ [err]) w
        | inl f =>
            let '(r, w) := subscribe f w in
            match r with
            | Some err =>
                let err := Errorf ("Failed to subscribe to " +:+ url +:+ ": "
                                   +:+ lib_Error err) in
                handleUpdate_urls urls' curFeeds (errs ++ [err]) w
            | None => handleUpdate_urls urls' curFeeds errs w
            end
        end
  end.

(** The second loop of [handleUpdate], over the keys of [curFeeds]
    still to visit. *)
Fixpoint handleUpdate_unsubscribe (urls : list string)
    (errs : list error) (w : World) : list error * World :=
  match urls with
  | [] => (errs, w)
  | url :: urls' =>
      let k := datastore_NewKey feedKind url in
      let '(r, w) := unsubscribe k w in
      match r with
      | Some err =>
          let err := Errorf ("Failed to unsubscribe from " +:+ url +:+ ": "
                             +:+ lib_Error err) in
          handleUpdate_unsubscribe urls' (errs ++ [err]) w
      | None => handleUpdate_unsubscribe urls' errs w
      end
  end.

(** [curFeeds] as [handleUpdate] fills it from the user's feeds. *)
Definition handleUpdate_curFeeds (feeds : list Key) : gmap string bool :=
  foldl (fun curFeeds f => <[Key_StringID f := true]> curFeeds) ∅ feeds.

Definition handleUpdate (r : Request) (w : World) : Response * World :=
  if decide (Request_Method r <> "POST") then (http_NotFound, w) else
  let '(ru, w) := getUserInfo w in
  match ru with
  | inr err => (http_Error (lib_Error err) StatusInternalServerError, w)
  | inl u =>
      let curFeeds := handleUpdate_curFeeds (UserInfo_Feeds u) in
      let urls := strings_Split (Request_FormValue r "urls") (String newline "") in
      let '((curFeeds, errs), w) := handleUpdate_urls urls curFeeds [] w in
      let '(errs, w) :=
        handleUpdate_unsubscribe (range_order curFeeds) errs w in
      if (0 <? len errs)%Z
      then (http_Error (errorList_Error errs) StatusInternalServerError, w)
      else (http_Redirect "/list" StatusFound, w)
  end.

(** The loop of [handleRefreshAll], for at most [fuel] calls of
    [it.Next]; [None] when that is not enough for it to end. *)
Fixpoint handleRefreshAll_loop (fuel : nat) (errs : list error) (w : World)
    : option (list error * World) :=
  match fuel with
  | O => None
  | S fuel =>
      let '(r, w) := Iterator_Next w in
      match r with
      | inr err =>
          if is_Done err then Some (errs, w)
          else handleRefreshAll_loop fuel (errs ++ [LibError err]) w
      | inl k =>
          let '(r, w) := taskqueue_Add "/refresh" (Key_Encode k) w in
          match r with
          | Some err => handleRefreshAll_loop fuel (errs ++ [LibError err]) w
          | None => handleRefreshAll_loop fuel errs w
          end
      end
  end.

Definition handleRefreshAll (fuel : nat) (w : World)
    : option (Response * World) :=
  '(errs, w) ← handleRefreshAll_loop fuel [] w;
  if (0 <? len errs)%Z
  then Some (http_Error (errorList_Error errs) StatusInternalServerError, w)
  else Some (nothing_written, w).

(** *** What the calls were *)

Definition checked (calls : list Call) : list string :=
  omap (fun c => match c with call_checkUrl url => Some url | _ => None end)
    calls.
Definition subscribed (calls : list Call) : list FeedInfo :=
  omap (fun c => match c with call_subscribe f => Some f | _ => None end)
    calls.
Definition unsubscribed (calls : list Call) : list Key :=
  omap (fun c => match c with call_unsubscribe k => Some k | _ => None end)
    calls.
Definition loaded (calls : list Call) : list Key :=
  omap (fun c => match c with call_Get key => Some key | _ => None end) calls.
Definition queued (calls : list Call) : list (string * string) :=
  omap (fun c => match c with
                 | call_Add path feed => Some (path, feed)
                 | _ => None
                 end) calls.
Definition nexts (calls : list Call) : nat :=
  length (omap (fun c => match c with call_Next => Some tt | _ => None end)
            calls).

(** The lines of the form as [handleUpdate] reads them: trimmed, the
    empty ones left out. *)
Definition trimmed (urls : list string) : list string :=
  filter (fun url => url <> "") (strings_TrimSpace <$> urls).

(** The URLs of the form of [handleUpdate]. *)
Definition submitted (r : Request) : list string :=
  trimmed (strings_Split (Request_FormValue r "urls") (String newline "")).

(** Every value of the map is [true], so [curFeeds[url]] says whether
    [url] is a key. *)
Definition all_true (m : gmap string bool) : Prop :=
  forall k v, m !! k = Some v -> v = true.


(** What reading one feed gave: its articles, or an error. *)
Definition articles_of (rs : list (list Article + error)) : list Article :=
  concat (omap (fun r => match r with inl a => Some a | inr _ => None end) rs).
Definition errors_of (rs : list (list Article + error)) : list error :=
  omap (fun r => match r with inl _ => None | inr e => Some e end) rs.

(** What one feed gives when it is read in the world [w], and the calls
    made for it: [datastore.Get] answers for the key; if it fails, the
    error has the key's id and the failure; if it gives the [FeedInfo]
    [f], [f.articlesSince] answers in the world after that call, and the
    feed gives the articles it answers, or the error with the URL of [f]
    and the failure. *)
Inductive feed_read (key : Key) (t : Time) (w : World)
    : list Article + error -> list Call -> Prop :=
  | read_unloadable err :
      reply_Get w key = inr err ->
      feed_read key t w
        (inr (Errorf (Key_StringID key
                      +:+ ": failed to load from the datastore: "
                      +:+ lib_Error err)))
        [call_Get key]
  | read_unreadable f err :
      reply_Get w key = inl f ->
      reply_FeedInfo_articlesSince (w ++ [call_Get key]) f t = inr err ->
      feed_read key t w
        (inr (Errorf (FeedInfo_Url f +:+ ": failed to read articles: "
                      +:+ lib_Error err)))
        [call_Get key; call_FeedInfo_articlesSince f t]
  | read_articles f as_ :
      reply_Get w key = inl f ->
      reply_FeedInfo_articlesSince (w ++ [call_Get key]) f t = inl as_ ->
      feed_read key t w (inl as_)
        [call_Get key; call_FeedInfo_articlesSince f t].

(** The feeds read one after the other, each in the world the calls for
    the feeds before it have left. *)
Inductive feeds_read (t : Time)
    : list Key -> World -> list (list Article + error) -> list Call -> Prop :=
  | feeds_read_nil w : feeds_read t [] w [] []
  | feeds_read_cons key feeds w r calls rs calls' :
      feed_read key t w r calls ->
      feeds_read t feeds (w ++ calls) rs calls' ->
      feeds_read t (key :: feeds) w (r :: rs) (calls ++ calls').

(** The URLs checked and subscribed to one after the other without a
    failure, from the world [w] on: [checkUrl] answers a feed for each
    URL, in the world the calls before have left, and [subscribe]
    answers no error for that feed, in the world after the check. *)
Inductive all_subscribed
    : list string -> World -> list FeedInfo -> list Call -> Prop :=
  | all_subscribed_nil w : all_subscribed [] w [] []
  | all_subscribed_cons url urls w f fs calls :
      reply_checkUrl w url = inl f ->
      reply_subscribe (w ++ [call_checkUrl url]) f = None ->
      all_subscribed urls (w ++ [call_checkUrl url; call_subscribe f]) fs calls ->
      all_subscribed (url :: urls) w (f :: fs)
        (call_checkUrl url :: call_subscribe f :: calls).

(** How often [url] is in [urls]. *)
Definition occurrences (url : string) (urls : list string) : nat :=
  length (filter (fun u => u = url) urls).

(** [range] visits each key of the map once. *)
Definition range_visits_keys : Prop :=
  forall m : gmap string bool,
    NoDup (range_order m) /\
    forall k, k ∈ range_order m <-> is_Some (m !! k).

End handlers.
End handlers.

(** ** Instances for the handlers

    A small application to run the handlers on: keys and feeds are
    their URLs, the libraries' errors are their messages, one feed
    cannot be loaded and one URL cannot be reached. *)
Module SampleApp.
Import feedme handlers.

Fixpoint map_string (f : ascii -> ascii) (s : string) : string :=
  match s with
  | EmptyString => EmptyString
  | String c s' => String (f c) (map_string f s')
  end.

Definition is_space (c : ascii) : bool :=
  bool_decide (c = " "%char) || bool_decide (c = "009"%char)
  || bool_decide (c = "013"%char) || bool_decide (c = newline).

(** [strings.TrimSpace], for the white space of ASCII. *)
Definition TrimSpace (s : string) : string :=
  string_of_list_ascii
    (reverse (GoTime.dropWhile is_space
       (reverse (GoTime.dropWhile is_space (list_ascii_of_string s))))).

(** [strings.Split], for a separator of one character. *)
Fixpoint split_at (sep : ascii) (s : string) (cur : string) : list string :=
  match s with
  | EmptyString => [String.rev cur]
  | String c s' =>
      if bool_decide (c = sep) then String.rev cur :: split_at sep s' ""
      else split_at sep s' (String c cur)
  end.

Definition Split (s sep : string) : list string :=
  match sep with
  | String c EmptyString => split_at c s ""
  | _ => [s]
  end.

Definition strings : StringsPkg :=
  {| strings_ToLower := map_string GoTime.toLower;
     strings_TrimSpace := TrimSpace;
     strings_Split := Split |}.

(** An OPML file: a feed, a folder of two feeds, and the first feed
    again. *)
Definition opml_doc : string :=
  "<opml version='1.0'><head><title>feeds</title></head><body>" +:+
  "<outline xmlUrl='http://a.example/feed'/>" +:+
  "<outline text='more'>" +:+
  "<outline xmlUrl='http://down.example/feed'/>" +:+
  "<outline xmlUrl='http://c.example/feed'/>" +:+
  "</outline>" +:+
  "<outline xmlUrl='http://a.example/feed'/>" +:+
  "</body></opml>".

(** Its [body] element as [encoding/xml] decodes it into an [Outline]:
    the element has no [xmlUrl], and its [outline] children are the
    outlines below it. *)
Definition outline : Outline :=
  mkOutline ""
    [ mkOutline "http://a.example/feed" [];
      mkOutline "" [ mkOutline "http://down.example/feed" [];
                     mkOutline "http://c.example/feed" [] ];
      mkOutline "http://a.example/feed" [] ].

Definition Done : string := "datastore: query has no more results".

Definition types : AppTypes :=
  {| Key := string;
     Key_StringID := id;
     Key_Encode := id;
     datastore_NewKey := fun kind stringID => stringID;
     FeedInfo := string;
     FeedInfo_Url := id;
     Article := string;
     lib_error := string;
     lib_Error := id;
     is_Done := fun err => bool_decide (err = Done);
     feedKind := "Feed";
     range_order := fun m => (map_to_list m).*1;
     opml_Decode := fun f =>
       if decide (f = bytes_of_string opml_doc) then inl outline
       else inr "EOF" |}.

End SampleApp.

#[local] Existing Instance SampleApp.strings.
#[local] Existing Instance SampleApp.types.

Module SampleReplies.
Import feedme handlers.

(** The user has two feeds; the second cannot be loaded, one URL cannot
    be reached, and the iterator has two keys. *)
Definition replies : AppReplies :=
  {| reply_getUserInfo := fun _ =>
       inl (mkUserInfo ["http://a.example/feed"; "http://b.example/feed"]);
     reply_Get := fun _ key =>
       if decide (key = "http://b.example/feed")
       then inr "datastore: no such entity" else inl key;
     reply_FeedInfo_articlesSince := fun _ f _ => inl ["article of " +:+ f];
     reply_checkUrl := fun _ url =>
       if decide (url = "http://down.example/feed")
       then inr "no answer" else inl url;
     reply_subscribe := fun _ _ => None;
     reply_unsubscribe := fun _ _ => None;
     reply_Next := fun w =>
       if decide (nexts w < 2)%nat then inl "http://a.example/feed"
       else inr SampleApp.Done;
     reply_Add := fun _ _ _ => None |}.

(** The same, with an iterator that has failed and says so each time. *)
Definition stuck : AppReplies :=
  {| reply_getUserInfo := @reply_getUserInfo _ replies;
     reply_Get := @reply_Get _ replies;
     reply_FeedInfo_articlesSince := @reply_FeedInfo_articlesSince _ replies;
     reply_checkUrl := @reply_checkUrl _ replies;
     reply_subscribe := @reply_subscribe _ replies;
     reply_unsubscribe := @reply_unsubscribe _ replies;
     reply_Next := fun _ => inr "datastore: deadline exceeded";
     reply_Add := @reply_Add _ replies |}.

(** A form with the first of the user's feeds, twice, and a new URL. *)
Definition update_request : Request :=
  {| Request_Method := "POST";
     Request_FormValue := fun _ =>
       "http://a.example/feed" +:+ String newline
       ("  http://c.example/feed " +:+ String newline
       ("" +:+ String newline "http://a.example/feed"));
     Request_FormFile := fun _ => inr "http: no such file" |}.

Definition opml_request : Request :=
  {| Request_Method := "POST";
     Request_FormValue := fun _ => "";
     Request_FormFile := fun _ => inl (bytes_of_string SampleApp.opml_doc) |}.

Definition feeds : feedList :=
  [ mkFeedListEntry "banana" "http://b.example/feed" Time_zero "b";
    mkFeedListEntry "Apple" "http://a.example/feed" Time_zero "a";
    mkFeedListEntry "cherry" "http://c.example/feed" Time_zero "c" ].

End SampleReplies.

#[local] Existing Instance SampleReplies.replies.

(** * Theorems *)

(** ** bytes.Index *)

Lemma bytes_HasPrefix_app (s prefix : bytes) :
  bytes_HasPrefix s prefix = true <-> exists post, s = prefix ++ post.
Proof.
  revert s; induction prefix as [|p prefix IH]; intros s; simpl.
  - split; [intros _; by exists s | done].
  - destruct s as [|c s].
    + split; [done | intros [post Hpost]; discriminate].
    + rewrite andb_true_iff, IH. split.
      * intros [Hc [post ->]]. apply Byte.byte_dec_bl in Hc as ->. by exists post.
      * intros [post [= -> ->]]. split; [by apply Byte.byte_dec_lb | by exists post].
Qed.

Lemma Absent_cons (sep s : bytes) (c : byte) :
  bytes_HasPrefix (c :: s) sep = false -> Absent sep s -> Absent sep (c :: s).
Proof.
  intros Hpre Habs [|c' pre] post Heq.
  - assert (bytes_HasPrefix (c :: s) sep = true) as Hyes
      by (apply bytes_HasPrefix_app; by exists post).
    congruence.
  - injection Heq as -> ->. by apply (Habs pre post).
Qed.

Lemma FirstAt_here (sep post : bytes) : FirstAt sep (sep ++ post) [] post.
Proof. split; [done | intros; simpl; lia]. Qed.

Lemma FirstAt_cons (sep s pre post : bytes) (c : byte) :
  bytes_HasPrefix (c :: s) sep = false ->
  FirstAt sep s pre post -> FirstAt sep (c :: s) (c :: pre) post.
Proof.
  intros Hpre [-> Hmin]. split; [done |].
  intros [|c' pre'] post' Heq.
  - assert (bytes_HasPrefix (c :: pre ++ sep ++ post) sep = true) as Hyes
      by (apply bytes_HasPrefix_app; by exists post').
    congruence.
  - injection Heq as -> Heq. simpl. apply Hmin in Heq. lia.
Qed.

(** [bytes_Index_from] finds the first instance or answers -1. *)
Lemma bytes_Index_from_spec (s sep : bytes) (i : Z) :
  (bytes_Index_from i s sep = (-1)%Z /\ Absent sep s) \/
  (exists pre post,
     FirstAt sep s pre post /\ bytes_Index_from i s sep = (i + len pre)%Z).
Proof.
  revert i; induction s as [|c s IH]; intros i; simpl.
  - destruct sep as [|p sep]; simpl.
    + right. exists [], []. split; [apply (FirstAt_here [] []) |].
      unfold len; simpl; lia.
    + left. split; [done |]. intros pre post Heq.
      by destruct pre.
  - destruct (bytes_HasPrefix (c :: s) sep) eqn:Hpre.
    + right. apply bytes_HasPrefix_app in Hpre as [post Hpost].
      exists [], post. rewrite Hpost. split; [apply FirstAt_here |].
      unfold len; simpl; lia.
    + destruct (IH (i + 1)%Z) as [[Hidx Habs] | (pre & post & Hfirst & Hidx)].
      * left. split; [done | by apply Absent_cons].
      * right. exists (c :: pre), post. split; [by apply FirstAt_cons |].
        rewrite Hidx. unfold len; simpl; lia.
Qed.

Lemma FirstAt_unique (sep s pre1 post1 pre2 post2 : bytes) :
  FirstAt sep s pre1 post1 -> FirstAt sep s pre2 post2 ->
  pre1 = pre2 /\ post1 = post2.
Proof.
  intros [H1 Hmin1] [H2 Hmin2].
  assert (length pre1 = length pre2) as Hlen.
  { apply Nat.le_antisymm; [by apply (Hmin1 pre2 post2) | by apply (Hmin2 pre1 post1)]. }
  rewrite H1 in H2. apply app_inj_1 in H2 as [-> H2]; [|done].
  by apply app_inv_head in H2 as ->.
Qed.

Lemma FirstAt_not_Absent (sep s pre post : bytes) :
  FirstAt sep s pre post -> Absent sep s -> False.
Proof. intros [Heq _] Habs. by apply (Habs pre post). Qed.

Lemma bytes_Index_absent (s sep : bytes) :
  Absent sep s -> bytes_Index s sep = (-1)%Z.
Proof.
  intros Habs. unfold bytes_Index.
  destruct (bytes_Index_from_spec s sep 0) as [[Hidx _] | (pre & post & Hfirst & _)];
    [done | by destruct (FirstAt_not_Absent _ _ _ _ Hfirst Habs)].
Qed.

Lemma bytes_Index_first (s sep pre post : bytes) :
  FirstAt sep s pre post -> bytes_Index s sep = len pre.
Proof.
  intros Hfirst. unfold bytes_Index.
  destruct (bytes_Index_from_spec s sep 0) as [[_ Habs] | (pre' & post' & Hfirst' & Hidx)].
  - by destruct (FirstAt_not_Absent _ _ _ _ Hfirst Habs).
  - destruct (FirstAt_unique _ _ _ _ _ _ Hfirst Hfirst') as [-> _].
    rewrite Hidx. lia.
Qed.

Lemma slice_from_app (pre sep post : bytes) :
  slice_from (pre ++ sep ++ post) (len pre + len sep) = post.
Proof.
  unfold slice_from, len. rewrite <- Nat2Z.inj_add, Nat2Z.id.
  rewrite app_assoc, <- length_app. by rewrite drop_app_length.
Qed.

Lemma slice_to_app (pre post : bytes) : slice_to (pre ++ post) (len pre) = pre.
Proof. unfold slice_to, len. rewrite Nat2Z.id. by rewrite take_app_length. Qed.

Lemma FirstAt_of_Index (s sep pre post : bytes) :
  s = pre ++ sep ++ post -> bytes_Index s sep = len pre ->
  FirstAt sep s pre post.
Proof.
  intros Heq Hidx.
  destruct (bytes_Index_from_spec s sep 0) as [[_ Habs] | (pre' & post' & Hfirst & Hidx')].
  - by destruct (Habs pre post).
  - fold (bytes_Index s sep) in Hidx'. rewrite Hidx in Hidx'.
    assert (length pre = length pre') as Hlen by (unfold len in Hidx'; lia).
    destruct Hfirst as [Heq' Hmin]. rewrite Heq in Heq'.
    apply app_inj_1 in Heq' as [-> Heq']; [|done].
    apply app_inv_head in Heq' as ->. by split.
Qed.

Lemma len_not_negative {A} (l : list A) : (len l <? 0)%Z = false.
Proof. unfold len. apply Z.ltb_ge. lia. Qed.

(** ** fixHtml *)

Section fixHtml_proofs.
Context `{!XmlPkg, !TimePkg, !HtmlPkg}.

(** [fixHtml] after a parse that gave [n], by what rendering [n] does. *)
Lemma fixHtml_parsed (wild : bytes) (n : Node) :
  html_Parse wild = inl n ->
  fixHtml wild =
    match html_Render n with
    | Panicked v =>
        if decide (v = ErrTooLarge) then Returned (escapeBytes wild)
        else Panicked v
    | Returned (inr _) => Returned (escapeBytes wild)
    | Returned (inl out) =>
        if (bytes_Index out openBody <? 0)%Z then Returned (escapeBytes wild)
        else
          let rest := slice_from out (bytes_Index out openBody + len openBody) in
          if (bytes_Index rest closeBody <? 0)%Z then Returned (escapeBytes wild)
          else Returned (slice_to rest (bytes_Index rest closeBody))
    end.
Proof.
  intros HP. unfold fixHtml. rewrite HP.
  destruct (html_Render n) as [[out | e] | v]; cbn; [|done..].
  destruct (bytes_Index out openBody <? 0)%Z; [done |]. cbn.
  by destruct (bytes_Index _ closeBody <? 0)%Z.
Qed.

Lemma fixHtml_no_open (wild : bytes) (n : Node) (out : bytes) :
  html_Parse wild = inl n -> html_Render n = Returned (inl out) ->
  Absent openBody out -> fixHtml wild = Returned (escapeBytes wild).
Proof.
  intros HP HR Habs. rewrite (fixHtml_parsed _ _ HP), HR.
  by rewrite (bytes_Index_absent _ _ Habs).
Qed.

Lemma fixHtml_open (wild : bytes) (n : Node) (out pre rest : bytes) :
  html_Parse wild = inl n -> html_Render n = Returned (inl out) ->
  FirstAt openBody out pre rest ->
  fixHtml wild =
    if (bytes_Index rest closeBody <? 0)%Z then Returned (escapeBytes wild)
    else Returned (slice_to rest (bytes_Index rest closeBody)).
Proof.
  intros HP HR Hopen. rewrite (fixHtml_parsed _ _ HP), HR.
  rewrite (bytes_Index_first _ _ _ _ Hopen), len_not_negative. cbn zeta.
  destruct Hopen as [-> _]. by rewrite slice_from_app.
Qed.

(** The specification's outcome is the one [fixHtml] has. *)
Lemma MarkupRepair_fixHtml (wild : bytes) (o : Outcome bytes) :
  MarkupRepair wild o -> fixHtml wild = o.
Proof.
  intros [e HP | n e HP HR | n HP HR | n v HP HR Hv | n out HP HR Habs
         | n out pre rest HP HR Hopen Habs | n out pre mid post HP HR Hopen Hclose].
  - unfold fixHtml. by rewrite HP.
  - by rewrite (fixHtml_parsed _ _ HP), HR.
  - by rewrite (fixHtml_parsed _ _ HP), HR.
  - rewrite (fixHtml_parsed _ _ HP), HR. by destruct (decide (v = ErrTooLarge)).
  - by apply (fixHtml_no_open _ n out).
  - rewrite (fixHtml_open _ n out pre rest HP HR Hopen).
    by rewrite (bytes_Index_absent _ _ Habs).
  - rewrite (fixHtml_open _ n out pre _ HP HR Hopen).
    rewrite (bytes_Index_first _ _ _ _ Hclose), len_not_negative.
    by rewrite slice_to_app.
Qed.

(** Every run of [fixHtml] is one the specification describes. *)
Lemma fixHtml_MarkupRepair (wild : bytes) : MarkupRepair wild (fixHtml wild).
Proof.
  destruct (html_Parse wild) as [n | e] eqn:HP.
  2: { unfold fixHtml. rewrite HP. by apply (repair_parse_failed _ e). }
  destruct (html_Render n) as [[out | e] | v] eqn:HR.
  - destruct (bytes_Index_from_spec out openBody 0)
      as [[_ Habs] | (pre & rest & Hopen & _)].
    { rewrite (fixHtml_no_open _ n out HP HR Habs).
      by apply (repair_no_open _ n out). }
    rewrite (fixHtml_open _ n out pre rest HP HR Hopen).
    destruct (bytes_Index_from_spec rest closeBody 0)
      as [[_ Habs] | (mid & post & Hclose & _)].
    { rewrite (bytes_Index_absent _ _ Habs).
      by apply (repair_no_close _ n out pre rest). }
    rewrite (bytes_Index_first _ _ _ _ Hclose), len_not_negative.
    pose proof Hclose as [Hrest _]. rewrite Hrest, slice_to_app.
    apply (repair_body _ n out pre mid post); by rewrite <- ?Hrest.
  - rewrite (fixHtml_parsed _ _ HP), HR. by apply (repair_render_failed _ n e).
  - rewrite (fixHtml_parsed _ _ HP), HR. destruct (decide (v = ErrTooLarge)) as [-> | Hv].
    + by apply (repair_too_large _ n).
    + by apply (repair_defect _ n v).
Qed.

(** [fixHtml] returns unless the renderer panics with another value
    than [bytes.ErrTooLarge]. *)
Lemma fixHtml_returns (wild : bytes) :
  renders_safely -> exists well, fixHtml wild = Returned well.
Proof.
  intros Hsafe. destruct (fixHtml_MarkupRepair wild); eauto.
  match goal with Hr : html_Render _ = Panicked _ |- _ => apply Hsafe in Hr end.
  done.
Qed.

(** C5.  Markup Repair: for every input, [fixHtml] has the outcome the
    specification gives: the escaped input when the parse or the
    serialization fails, when a body marker is not found or when the
    renderer panics with [bytes.ErrTooLarge]; the bytes between the two
    markers otherwise; and a panic with the renderer's value when that
    is not [bytes.ErrTooLarge].  The specification leaves no other
    outcome, and [fixHtml] returns whenever the renderer keeps to that
    one panic. *)
Theorem fixHtml_markup_repair (wild : bytes) :
  MarkupRepair wild (fixHtml wild) /\
  (forall o, MarkupRepair wild o -> o = fixHtml wild) /\
  (renders_safely -> exists well, fixHtml wild = Returned well).
Proof.
  split; [apply fixHtml_MarkupRepair |].
  split; [intros o Ho; symmetry; by apply MarkupRepair_fixHtml |].
  apply fixHtml_returns.
Qed.

End fixHtml_proofs.

(** ** rssTime *)

Section rssTime_proofs.
Context `{!XmlPkg, !TimePkg, !HtmlPkg}.

(** The loop stops at the first format that matches. *)
Lemma rssTime_loop_Some (formats : list string) (s : string) (t : Time) :
  rssTime_loop formats s = Some t <->
  exists before layout after,
    formats = before ++ layout :: after /\
    Forall (fun g => time_Parse g s = None) before /\
    time_Parse layout s = Some t.
Proof.
  induction formats as [|f formats IH]; simpl.
  - split; [done | intros (before & layout & after & Heq & _)].
    by destruct before.
  - destruct (time_Parse f s) as [t' |] eqn:Hf.
    + split.
      * intros [= ->]. exists [], f, formats. by repeat split.
      * intros ([|g before] & layout & after & Heq & Hnone & Hsome).
        -- injection Heq as -> ->. congruence.
        -- injection Heq as -> ->. apply Forall_cons in Hnone as [Hg _]. congruence.
    + rewrite IH. split.
      * intros (before & layout & after & -> & Hnone & Hsome).
        exists (f :: before), layout, after. repeat split; [|done].
        by apply Forall_cons.
      * intros ([|g before] & layout & after & Heq & Hnone & Hsome).
        -- injection Heq as -> ->. congruence.
        -- injection Heq as -> ->. apply Forall_cons in Hnone as [_ Hnone].
           by exists before, layout, after.
Qed.

Lemma rssTime_loop_None (formats : list string) (s : string) :
  rssTime_loop formats s = None <->
  Forall (fun g => time_Parse g s = None) formats.
Proof.
  induction formats as [|f formats IH]; simpl.
  - split; [by constructor | done].
  - rewrite Forall_cons, <- IH.
    destruct (time_Parse f s); [split; [done | by intros [? _]] | tauto].
Qed.

Lemma rssTime_empty : rssTime "" = (Time_zero, None).
Proof. done. Qed.

Lemma rssTime_resolves (s : string) (t : Time) :
  s <> "" -> resolves s t -> rssTime s = (t, None).
Proof.
  intros Hs (layout & before & after & Heq & Hnone & Hsome).
  unfold rssTime. rewrite decide_False by done.
  assert (rssTime_loop rssTimeFormats s = Some t) as ->; [|done].
  apply rssTime_loop_Some. by exists before, layout, after.
Qed.

Lemma rssTime_unparsable (s : string) :
  unparsable s -> rssTime s = (Time_zero, Some (ErrBadTime s)).
Proof.
  intros [Hs Hnone]. unfold rssTime. rewrite decide_False by done.
  apply rssTime_loop_None in Hnone. by rewrite Hnone.
Qed.

(** What [rssTime] returns, by the three cases of its input. *)
Lemma rssTime_cases (s : string) :
  (s = "" /\ rssTime s = (Time_zero, None)) \/
  (s <> "" /\ exists t, resolves s t /\ rssTime s = (t, None)) \/
  (unparsable s /\ rssTime s = (Time_zero, Some (ErrBadTime s))).
Proof.
  destruct (decide (s = "")) as [-> | Hs]; [by left |]. right.
  destruct (rssTime_loop rssTimeFormats s) as [t |] eqn:Hloop.
  - left. split; [done |].
    assert (resolves s t) as Hres.
    { apply rssTime_loop_Some in Hloop as (before & layout & after & ?).
      by exists layout, before, after. }
    exists t. split; [done | by apply rssTime_resolves].
  - right. assert (unparsable s) as Hbad.
    { split; [done | by apply rssTime_loop_None]. }
    split; [done | by apply rssTime_unparsable].
Qed.

Lemma rssTime_resolved (s : string) : resolved s (rssTime s).1.
Proof.
  destruct (rssTime_cases s) as [[-> ->] | [[Hs (t & Hres & ->)] | [Hbad ->]]].
  - by left.
  - right; by left.
  - right; by right.
Qed.

(** The error of [rssTime] is [ErrBadTime] with its argument, and it is
    there exactly for the unparsable strings. *)
Lemma rssTime_error (s : string) :
  (unparsable s /\ (rssTime s).2 = Some (ErrBadTime s)) \/
  (~ unparsable s /\ (rssTime s).2 = None).
Proof.
  destruct (rssTime_cases s) as [[-> ->] | [[Hs (t & Hres & Heq)] | [Hbad ->]]].
  - right. split; [by intros [? _] | done].
  - right. rewrite Heq. split; [|done]. intros Hbad.
    apply rssTime_unparsable in Hbad. congruence.
  - by left.
Qed.

Lemma rssTime_eq_reference (s : string) : rssTime s = rssTime_reference s.
Proof.
  unfold rssTime, rssTime_reference.
  destruct s as [|c s]; [done |].
  rewrite decide_False by done. simpl.
  repeat (match goal with |- context [time_Parse ?f ?v] =>
            destruct (time_Parse f v); [done |] end).
  done.
Qed.

(** C4.  Timestamp Resolution: [rssTime] is the reference definition on
    every string; a string in a recognized format resolves to the
    instant its first matching format gives, whatever later formats
    would give; an unparsable string gives the zero instant and
    [ErrBadTime] with exactly that string.  In particular, with the
    [time] package parsing each layout as Go documents it,
    "Mon, 2 Jan 2006 15:04:05 -0700" resolves to
    2006-01-02T15:04:05-07:00, and "02 January 2006", which the first
    three layouts reject, resolves by the fourth. *)
Theorem rssTime_refines_reference :
  (forall s, rssTime s = rssTime_reference s) /\
  (forall s t, s <> "" -> resolves s t -> rssTime s = (t, None)) /\
  (forall s, unparsable s -> rssTime s = (Time_zero, Some (ErrBadTime s))) /\
  (time_Parse "Mon, 2 Jan 2006 15:04:05 -0700" "Mon, 2 Jan 2006 15:04:05 -0700"
     = Some reference_instant ->
   rssTime "Mon, 2 Jan 2006 15:04:05 -0700" = (reference_instant, None)) /\
  (forall t,
     time_Parse "Mon, 2 Jan 2006 15:04:05 -0700" "02 January 2006" = None ->
     time_Parse "Mon, 2 Jan 2006 15:04:05 MST" "02 January 2006" = None ->
     time_Parse "Mon, 2 Jan 06 15:04:05 -0700" "02 January 2006" = None ->
     time_Parse "02 January 2006" "02 January 2006" = Some t ->
     resolves_by "02 January 2006" "02 January 2006" t /\
     rssTime "02 January 2006" = (t, None)).
Proof.
  split; [apply rssTime_eq_reference |].
  split; [apply rssTime_resolves |].
  split; [apply rssTime_unparsable |].
  split.
  - intros Hparse. rewrite rssTime_eq_reference. simpl. by rewrite Hparse.
  - intros t Hno1 Hno2 Hno3 Hyes4. split.
    + exists (take 3 rssTimeFormats), []. split; [done |]. split; [|done].
      by repeat constructor.
    + rewrite rssTime_eq_reference. simpl. by rewrite Hno1, Hno2, Hno3, Hyes4.
Qed.

End rssTime_proofs.

(** ** rssFeed *)

Section rssFeed_proofs.
Context `{!XmlPkg, !TimePkg, !HtmlPkg}.

Lemma first_failure_here (s : string) (ds : list string) :
  unparsable s -> first_failure (s :: ds) (Some (ErrBadTime s)).
Proof.
  intros Hbad. right. exists s. split; [done |].
  exists [], ds. split; [done |]. split; [constructor | done].
Qed.

Lemma first_failure_later (s : string) (ds : list string) (err : option error) :
  ~ unparsable s -> first_failure ds err -> first_failure (s :: ds) err.
Proof.
  intros Hok [[-> Hall] | (s' & -> & before & after & -> & Hbefore & Hbad)].
  - left. split; [done | by apply Forall_cons].
  - right. exists s'. split; [done |].
    exists (s :: before), after. split; [done |]. split; [by apply Forall_cons | done].
Qed.

(** The error that is kept does not change once it is set. *)
Lemma rssFeed_loop_returned (items : list rssItem) :
  forall f err f' err',
    rssFeed_loop items f err = Returned (f', err') ->
    exists ents,
      Forall2 entry_of_item items ents /\
      f' = {| Feed_Title := Feed_Title f; Feed_Link := Feed_Link f;
              Feed_Updated := Feed_Updated f;
              Feed_Entries := Feed_Entries f ++ ents |} /\
      (is_Some err -> err' = err) /\
      (err = None -> first_failure (map rssItem_Updated items) err').
Proof.
  induction items as [|it items IH]; intros f err f' err'; simpl.
  - intros [= <- <-]. exists []. split; [constructor |].
    split; [destruct f; simpl; by rewrite app_nil_r |].
    split; [done |]. intros ->. left. split; [done | constructor].
  - pose proof (rssTime_resolved (rssItem_Updated it)) as Hwhen.
    pose proof (rssTime_error (rssItem_Updated it)) as Herr.
    destruct (rssTime (rssItem_Updated it)) as [when e]; simpl in Hwhen, Herr.
    destruct (fixHtml (rssItem_Description it)) as [summary | v] eqn:Hsum;
      [cbn | done].
    destruct (fixHtml (rssContent_Data (rssItem_Content it))) as [content | v]
      eqn:Hcon; [cbn | done].
    intros Hloop. apply IH in Hloop as (ents & Hents & -> & Hkept & Hfirst).
    exists ({| Entry_Title := rssItem_Title it; Entry_Link := rssItem_Link it;
               Entry_Summary := summary; Entry_Content := content;
               Entry_When := when |} :: ents).
    split; [by constructor |].
    split; [simpl; by rewrite <- app_assoc |].
    split.
    + intros [e0 ->]. by apply Hkept.
    + intros ->. destruct Herr as [[Hbad ->] | [Hok ->]].
      * rewrite Hkept by done. by apply first_failure_here.
      * apply first_failure_later; [done | by apply Hfirst].
Qed.

Lemma rssFeed_loop_returns (items : list rssItem) :
  renders_safely ->
  forall f err, exists res, rssFeed_loop items f err = Returned res.
Proof.
  intros Hsafe. induction items as [|it items IH]; intros f err; simpl.
  - by eexists.
  - destruct (rssTime (rssItem_Updated it)) as [when e].
    destruct (fixHtml_returns (rssItem_Description it) Hsafe) as [summary ->].
    destruct (fixHtml_returns (rssContent_Data (rssItem_Content it)) Hsafe)
      as [content ->].
    cbn. apply IH.
Qed.

Lemma rssFeed_returns (r : rss) :
  renders_safely -> exists res, rssFeed r = Returned res.
Proof.
  intros Hsafe. unfold rssFeed. destruct (rssTime (rss_Updated r)).
  by apply rssFeed_loop_returns.
Qed.

(** What [rssFeed] returns: a populated feed and the first failure. *)
Lemma rssFeed_returned (r : rss) (f : Feed) (err : option error) :
  rssFeed r = Returned (f, err) ->
  rss_populated r f /\ first_failure (dates r) err.
Proof.
  unfold rssFeed.
  pose proof (rssTime_resolved (rss_Updated r)) as Hupd.
  pose proof (rssTime_error (rss_Updated r)) as Herr.
  destruct (rssTime (rss_Updated r)) as [updated e]; simpl in Hupd, Herr.
  intros Hloop.
  apply rssFeed_loop_returned in Hloop as (ents & Hents & -> & Hkept & Hfirst).
  split; [done |]. unfold dates.
  destruct Herr as [[Hbad ->] | [Hok ->]].
  - rewrite Hkept by done. by apply first_failure_here.
  - apply first_failure_later; [done | by apply Hfirst].
Qed.



End rssFeed_proofs.

(** ** atomFeed *)

Section atomFeed_proofs.
Context `{!XmlPkg, !TimePkg, !HtmlPkg}.

(** [link] returns the canonical link. *)
Lemma link_loop_canonical (links : list atomLink) :
  canonical_link links (link_loop links).
Proof.
  induction links as [|l links IH]; simpl.
  - right. split; [constructor | done].
  - destruct (decide (atomLink_Rel l = "" \/ atomLink_Rel l = "alternate"))
      as [Hl | Hl].
    + left. exists [], l, links. split; [done |]. split; [constructor | done].
    + destruct IH as [(before & l' & after & -> & Hbefore & Hl' & Hhref)
                     | [Hnone Hhref]].
      * left. exists (l :: before), l', after. split; [done |].
        split; [by apply Forall_cons | done].
      * right. split; [by apply Forall_cons | done].
Qed.

(** [Data] unescapes all content but xhtml. *)
Lemma Data_content_source (c : atomContent) : Data c = content_source c.
Proof.
  unfold Data, content_source.
  destruct (decide (atomContent_Type c = "xhtml")) as [Hc | Hc].
  - rewrite decide_False; [done | by intros ?].
  - by rewrite decide_True.
Qed.

Lemma atomFeed_loop_returned (entries : list atomEntry) :
  forall f f',
    atomFeed_loop entries f = Returned f' ->
    exists ents,
      Forall2 entry_of_atomEntry entries ents /\
      f' = {| Feed_Title := Feed_Title f; Feed_Link := Feed_Link f;
              Feed_Updated := Feed_Updated f;
              Feed_Entries := Feed_Entries f ++ ents |}.
Proof.
  induction entries as [|ent entries IH]; intros f f'; simpl.
  - intros [= <-]. exists []. split; [constructor |].
    destruct f; simpl; by rewrite app_nil_r.
  - destruct (fixHtml (atomEntry_Summary ent)) as [summary | v] eqn:Hsum;
      [cbn | done].
    destruct (atomEntry_Content ent) as [|c contents] eqn:Hcontents; cbn.
    + intros Hloop. apply IH in Hloop as (ents & Hents & ->).
      exists ({| Entry_Title := atomEntry_Title ent;
                 Entry_Link := atomLink_Href (atomEntry_Link ent);
                 Entry_Summary := summary; Entry_Content := [];
                 Entry_When := atomEntry_Updated ent |} :: ents). split.
      * constructor; [|done]. unfold entry_of_atomEntry. rewrite Hcontents.
        by repeat split.
      * simpl. by rewrite <- app_assoc.
    + destruct (fixHtml (Data c)) as [content | v] eqn:Hcon; [cbn | done].
      intros Hloop. apply IH in Hloop as (ents & Hents & ->).
      exists ({| Entry_Title := atomEntry_Title ent;
                 Entry_Link := atomLink_Href (atomEntry_Link ent);
                 Entry_Summary := summary; Entry_Content := content;
                 Entry_When := atomEntry_Updated ent |} :: ents). split.
      * constructor; [|done]. unfold entry_of_atomEntry. rewrite Hcontents.
        repeat split; try done. simpl. by rewrite <- Data_content_source.
      * simpl. by rewrite <- app_assoc.
Qed.

Lemma atomFeed_loop_returns (entries : list atomEntry) :
  renders_safely -> forall f, exists f', atomFeed_loop entries f = Returned f'.
Proof.
  intros Hsafe. induction entries as [|ent entries IH]; intros f; simpl.
  - by eexists.
  - destruct (fixHtml_returns (atomEntry_Summary ent) Hsafe) as [summary ->].
    cbn. destruct (atomEntry_Content ent) as [|c contents]; cbn; [apply IH |].
    destruct (fixHtml_returns (Data c) Hsafe) as [content ->]. cbn. apply IH.
Qed.

(** [atomFeed] returns no error, and a feed populated from the record. *)
Lemma atomFeed_returned (a : feed) (f : Feed) (err : option error) :
  atomFeed a = Returned (f, err) -> err = None /\ atom_populated a f.
Proof.
  unfold atomFeed.
  destruct (atomFeed_loop (feed_Entries a) _) as [f' | v] eqn:Hloop; [cbn | done].
  intros [= <- <-]. split; [done |].
  apply atomFeed_loop_returned in Hloop as (ents & Hents & ->).
  split; [done |]. split; [apply link_loop_canonical | done].
Qed.

Lemma atomFeed_returns (a : feed) :
  renders_safely -> exists f, atomFeed a = Returned (f, None).
Proof.
  intros Hsafe. unfold atomFeed.
  destruct (atomFeed_loop_returns (feed_Entries a) Hsafe
              {| Feed_Title := feed_Title a; Feed_Link := link a;
                 Feed_Updated := feed_Updated a; Feed_Entries := [] |})
    as [f ->].
  by exists f.
Qed.

(** C8.  For every Atom record, what [atomFeed] returns has, for each
    entry with content elements, the content Markup Repair gives for
    the first element alone: for its bytes as they are when the
    element's type is "xhtml", and for its bytes unescaped when the type
    is anything else.  [Data] is that choice, and [atomFeed] returns
    unless the renderer panics with another value than
    [bytes.ErrTooLarge]. *)
Theorem atomFeed_first_content (a : feed) :
  (renders_safely -> exists f, atomFeed a = Returned (f, None)) /\
  (forall c, Data c =
     if decide (atomContent_Type c = "xhtml") then atomContent_Contents c
     else bytes_of_string
            (html_UnescapeString (string_of_bytes (atomContent_Contents c)))) /\
  (forall f err i ent c others,
     atomFeed a = Returned (f, err) ->
     feed_Entries a !! i = Some ent ->
     atomEntry_Content ent = c :: others ->
     exists e,
       Feed_Entries f !! i = Some e /\
       fixHtml (Data c) = Returned (Entry_Content e) /\
       (atomContent_Type c = "xhtml" ->
        fixHtml (atomContent_Contents c) = Returned (Entry_Content e)) /\
       (atomContent_Type c <> "xhtml" ->
        fixHtml (bytes_of_string
                   (html_UnescapeString
                      (string_of_bytes (atomContent_Contents c))))
          = Returned (Entry_Content e))).
Proof.
  split; [apply atomFeed_returns |].
  split; [apply Data_content_source |].
  intros f err i ent c others Hres Hent Hcontents.
  apply atomFeed_returned in Hres as (_ & _ & _ & _ & Hents).
  apply (Forall2_lookup_l _ _ _ _ _ Hents) in Hent
    as (e & He & _ & _ & _ & Hcontent & _).
  rewrite Hcontents in Hcontent. simpl in Hcontent.
  exists e. split; [done |]. rewrite Data_content_source.
  split; [done |]. unfold content_source in Hcontent.
  split; intros Hc.
  - by rewrite decide_True in Hcontent.
  - by rewrite decide_False in Hcontent.
Qed.

End atomFeed_proofs.

(** ** Read *)

Section Read_proofs.
Context `{!XmlPkg, !TimePkg, !HtmlPkg}.

Lemma Read_decode_failed (r : bytes) (e : xml_error) :
  xml_Decode r = inr e -> Read r = Returned (Feed_zero, Some (XmlError e)).
Proof. intros Hdec. unfold Read. by rewrite Hdec. Qed.

Lemma Read_rss (r : bytes) (d : feed) :
  xml_Decode r = inl d -> rss_Title (feed_Rss d) <> "" ->
  Read r = rssFeed (feed_Rss d).
Proof. intros Hdec Htitle. unfold Read. by rewrite Hdec, decide_True. Qed.

Lemma Read_atom (r : bytes) (d : feed) :
  xml_Decode r = inl d -> rss_Title (feed_Rss d) = "" ->
  Read r = atomFeed d.
Proof.
  intros Hdec Htitle. unfold Read. rewrite Hdec, decide_False; [done |].
  by intros ?.
Qed.

Lemma Read_returns (r : bytes) :
  renders_safely -> exists res, Read r = Returned res.
Proof.
  intros Hsafe. destruct (xml_Decode r) as [d | e] eqn:Hdec.
  - destruct (decide (rss_Title (feed_Rss d) = "")) as [Htitle | Htitle].
    + rewrite (Read_atom r d Hdec Htitle).
      destruct (atomFeed_returns d Hsafe) as [f ->]. by eexists.
    + rewrite (Read_rss r d Hdec Htitle). by apply rssFeed_returns.
  - rewrite (Read_decode_failed r e Hdec). by eexists.
Qed.

Lemma Read_returned (r : bytes) (res : Feed * option error) :
  Read r = Returned res -> ReadResult r res.
Proof.
  destruct res as [f err]. destruct (xml_Decode r) as [d | e] eqn:Hdec.
  - destruct (decide (rss_Title (feed_Rss d) = "")) as [Htitle | Htitle].
    + rewrite (Read_atom r d Hdec Htitle). intros Hres.
      apply atomFeed_returned in Hres as [-> Hpop].
      by apply (read_atom r d).
    + rewrite (Read_rss r d Hdec Htitle). intros Hres.
      apply rssFeed_returned in Hres as [Hpop [[-> Hall] | (s & -> & Hfirst)]].
      * by apply (read_rss r d).
      * by apply (read_bad_time r d).
  - rewrite (Read_decode_failed r e Hdec). intros [= <- <-].
    by apply read_fatal.
Qed.

Lemma resolves_not_unparsable (s : string) (t : Time) :
  resolves s t -> ~ unparsable s.
Proof.
  intros (layout & before & after & Heq & _ & Hsome) [_ Hnone].
  rewrite Heq in Hnone. apply Forall_app in Hnone as [_ Hnone].
  apply Forall_cons in Hnone as [Hnone _]. congruence.
Qed.

Lemma first_unparsable_not_all (ds : list string) (s : string) :
  first_unparsable ds s -> Forall (fun s' => ~ unparsable s') ds -> False.
Proof.
  intros (before & after & -> & _ & Hbad) Hall.
  apply Forall_app in Hall as [_ Hall]. by apply Forall_cons in Hall as [? _].
Qed.

Lemma first_unparsable_unique (ds : list string) (s1 s2 : string) :
  first_unparsable ds s1 -> first_unparsable ds s2 -> s1 = s2.
Proof.
  intros (before1 & after1 & -> & Hok1 & Hbad1) (before2 & after2 & Heq & Hok2 & Hbad2).
  revert before2 Heq Hok2.
  induction before1 as [|x before1 IH]; intros [|y before2] Heq Hok2;
    simpl in Heq; injection Heq as Hhead Htail.
  - done.
  - subst y. by apply Forall_cons in Hok2 as [? _].
  - subst x. by apply Forall_cons in Hok1 as [? _].
  - apply Forall_cons in Hok1 as [_ Hok1]. apply Forall_cons in Hok2 as [_ Hok2].
    by apply (IH Hok1 before2).
Qed.

(** C1.  The decode entry point returns for every input (unless the
    renderer panics with another value than [bytes.ErrTooLarge]), and
    what it returns is one of: the zero [Feed] with the decoder's error,
    when the structural decode fails; a populated [Feed] with
    [ErrBadTime] carrying the first unparsable date string, for an RSS
    document with such a string; a populated [Feed] with no error, for
    an RSS document without one and for an Atom document.  So a non-nil
    error is one of the first two, and in the second the [Feed] has
    every title, link, summary and content, and every timestamp in a
    recognized format. *)
Theorem Read_results (r : bytes) :
  (renders_safely -> exists res, Read r = Returned res) /\
  (forall res, Read r = Returned res -> ReadResult r res) /\
  (forall f e, Read r = Returned (f, Some e) ->
     (exists x, e = XmlError x /\ xml_Decode r = inr x /\ f = Feed_zero) \/
     (exists s d, e = ErrBadTime s /\ xml_Decode r = inl d /\
        rss_Title (feed_Rss d) <> "" /\
        first_unparsable (dates (feed_Rss d)) s /\
        rss_populated (feed_Rss d) f)) /\
  (forall x, xml_Decode r = inr x ->
     Read r = Returned (Feed_zero, Some (XmlError x))) /\
  (forall d s, xml_Decode r = inl d ->
     rss_Title (feed_Rss d) <> "" ->
     first_unparsable (dates (feed_Rss d)) s ->
     renders_safely ->
     exists f, Read r = Returned (f, Some (ErrBadTime s))).
Proof.
  split; [apply Read_returns |].
  split; [apply Read_returned |].
  split; [| split; [apply Read_decode_failed |]].
  - intros f e Hres. apply Read_returned in Hres.
    inversion Hres as [x Hdec | d f' s Hdec Htitle Hfirst Hpop | |]; subst.
    + left. by exists x.
    + right. by exists s, d.
  - intros d s Hdec Htitle Hfirst Hsafe. rewrite (Read_rss r d Hdec Htitle).
    destruct (rssFeed_returns (feed_Rss d) Hsafe) as [[f err] Hres].
    exists f. rewrite Hres.
    apply rssFeed_returned in Hres as [_ [[_ Hall] | (s' & -> & Hfirst')]].
    + by destruct (first_unparsable_not_all _ _ Hfirst Hall).
    + by rewrite (first_unparsable_unique _ _ _ Hfirst' Hfirst).
Qed.

(** C3.  For every document the structural decode accepts: when its
    channel title is not empty (it is then taken as RSS) and each of its
    date strings is empty or in a recognized format, the decode entry
    point returns a nil error and a [Feed] with exactly one entry per
    item of the document, in document order, each populated from the
    item at its place; when its channel title is empty (it is then taken
    as Atom, an RSS document too), it returns a nil error and a [Feed]
    with exactly one entry per Atom entry element, in document order,
    and none for an item.  (The renderer is taken to panic with
    [bytes.ErrTooLarge] only.) *)
Theorem Read_one_entry_per_item (r : bytes) (d : feed) :
  xml_Decode r = inl d ->
  renders_safely ->
  (rss_Title (feed_Rss d) <> "" ->
   Forall (fun s => s = "" \/ exists t, resolves s t) (dates (feed_Rss d)) ->
   exists f, Read r = Returned (f, None) /\
     length (Feed_Entries f) = length (rss_Items (feed_Rss d)) /\
     Forall2 entry_of_item (rss_Items (feed_Rss d)) (Feed_Entries f)) /\
  (rss_Title (feed_Rss d) = "" ->
   exists f, Read r = Returned (f, None) /\
     length (Feed_Entries f) = length (feed_Entries d) /\
     Forall2 entry_of_atomEntry (feed_Entries d) (Feed_Entries f)).
Proof.
  intros Hdec Hsafe. split.
  - intros Htitle Hdates. rewrite (Read_rss r d Hdec Htitle).
    destruct (rssFeed_returns (feed_Rss d) Hsafe) as [[f err] Hres].
    pose proof (rssFeed_returned _ _ _ Hres) as [Hpop Hfirst].
    assert (err = None) as ->.
    { destruct Hfirst as [[-> _] | (s & _ & Hbad)]; [done |]. exfalso.
      apply (first_unparsable_not_all _ _ Hbad).
      eapply Forall_impl; [exact Hdates |]. intros s' [-> | [t Ht]].
      - by intros [? _].
      - by apply (resolves_not_unparsable s' t). }
    exists f. split; [done |]. destruct Hpop as (_ & _ & _ & Hents).
    split; [symmetry; by apply (Forall2_length _ _ _ Hents) | done].
  - intros Htitle. rewrite (Read_atom r d Hdec Htitle).
    destruct (atomFeed_returns d Hsafe) as [f Hres].
    pose proof (atomFeed_returned _ _ _ Hres) as (_ & _ & _ & _ & Hents).
    exists f. split; [done |].
    split; [symmetry; by apply (Forall2_length _ _ _ Hents) | done].
Qed.

(** C7.  Dialect detection: after a structural decode that succeeds,
    the record is transformed by [rssFeed] when the channel title is
    not empty, and by [atomFeed] when it is empty. *)
Theorem Read_dialect (r : bytes) (d : feed) :
  xml_Decode r = inl d ->
  (rss_Title (feed_Rss d) <> "" -> Read r = rssFeed (feed_Rss d)) /\
  (rss_Title (feed_Rss d) = "" -> Read r = atomFeed d).
Proof.
  intros Hdec. split; intros Htitle; [by apply Read_rss | by apply Read_atom].
Qed.

(** C10.  [atomFeed] never returns an error.  So for every document
    the structural decode accepts and whose channel title is empty, the
    decode entry point returns a nil error (it returns, the renderer
    panicking with [bytes.ErrTooLarge] only), and the timestamps of the
    result are the instants the decoder gave, copied: no date is parsed
    after the structural decode. *)
Theorem Read_atom_no_error (r : bytes) (d : feed) :
  xml_Decode r = inl d ->
  rss_Title (feed_Rss d) = "" ->
  (forall a f err, atomFeed a = Returned (f, err) -> err = None) /\
  (renders_safely -> exists f, Read r = Returned (f, None)) /\
  (forall f err, Read r = Returned (f, err) ->
     err = None /\
     Feed_Updated f = feed_Updated d /\
     Forall2 (fun ent e => Entry_When e = atomEntry_Updated ent)
       (feed_Entries d) (Feed_Entries f)).
Proof.
  intros Hdec Htitle. rewrite (Read_atom r d Hdec Htitle).
  split; [intros a f err Hres; by apply atomFeed_returned in Hres as [? _] |].
  split; [apply atomFeed_returns |].
  intros f err Hres. apply atomFeed_returned in Hres as (-> & _ & _ & Hupd & Hents).
  split; [done |]. split; [done |].
  eapply Forall2_impl; [exact Hents |]. by intros ent e (_ & _ & _ & _ & ?).
Qed.

(** [atomFeed] gives each entry the href of the one [atomLink] the entry
    was decoded into, whatever its rel; the selection by rel is made for
    the feed's link only. *)
Lemma atomFeed_entry_link (a : feed) (f : Feed) (err : option error) :
  atomFeed a = Returned (f, err) ->
  canonical_link (feed_Links a) (Feed_Link f) /\
  Forall2 (fun ent e => Entry_Link e = atomLink_Href (atomEntry_Link ent))
    (feed_Entries a) (Feed_Entries f).
Proof.
  intros Hres. apply atomFeed_returned in Hres as (_ & _ & Hlink & _ & Hents).
  split; [done |].
  eapply Forall2_impl; [exact Hents |]. by intros ent e (_ & ? & _).
Qed.

End Read_proofs.

(** * The theorems on sample documents

    The three libraries are here [SampleXml], [GoTime] and [SampleHtml],
    and the documents are those of [SampleXml]. *)

Lemma sample_html_renders_safely : renders_safely.
Proof. intros n v Hr. discriminate Hr. Defined.

Lemma decode_rss_doc :
  xml_Decode (bytes_of_string SampleXml.rss_doc) = inl SampleXml.rss_decoded.
Proof. reflexivity. Defined.

Lemma decode_rss_dated_doc :
  xml_Decode (bytes_of_string SampleXml.rss_dated_doc)
    = inl SampleXml.rss_dated_decoded.
Proof. reflexivity. Defined.

Lemma decode_atom_doc :
  xml_Decode (bytes_of_string SampleXml.atom_doc) = inl SampleXml.atom_decoded.
Proof. reflexivity. Defined.

(** A recognized date string, with the layout that matches it first. *)
Ltac resolves_with layout n :=
  exists layout, (take n rssTimeFormats), (drop (S n) rssTimeFormats);
  split; [reflexivity |]; split; [repeat constructor | reflexivity].

Lemma channel_date_resolves :
  resolves "Mon, 2 Jan 2006 15:04:05 -0700" reference_instant.
Proof. resolves_with "Mon, 2 Jan 2006 15:04:05 -0700" 0. Defined.

Lemma bare_date_resolves :
  resolves "02 January 2006" (mkTime 63271756800 0 0).
Proof. resolves_with "02 January 2006" 3. Defined.

Lemma yesterday_unparsable : unparsable "yesterday".
Proof. split; [discriminate | repeat constructor]. Defined.

(** The sample renderer writes the paragraph back as the body of its
    document, so the specification's outcome for it is the paragraph. *)
Lemma hello_repaired : MarkupRepair hello (Returned hello).
Proof.
  apply (@repair_body sample_html hello hello
           (bytes_of_string "<html><head></head><body><p>hello</p></body></html>")
           (bytes_of_string "<html><head></head>") hello
           (bytes_of_string "</html>"));
    [reflexivity | reflexivity | |]; apply FirstAt_of_Index; reflexivity.
Defined.

Lemma fixHtml_markup_repair_witness :
  MarkupRepair hello (Returned hello) /\
  renders_safely /\
  fixHtml hello = Returned hello.
Proof.
  assert (MarkupRepair hello (Returned hello)) as Hspec by exact hello_repaired.
  destruct (fixHtml_markup_repair hello) as (_ & Hunique & Hreturns).
  split; [exact Hspec |]. split; [exact sample_html_renders_safely |].
  symmetry. exact (Hunique _ Hspec).
Defined.

Lemma rssTime_refines_reference_witness :
  rssTime "Mon, 2 Jan 2006 15:04:05 -0700" = (reference_instant, None) /\
  rssTime "02 January 2006" = (mkTime 63271756800 0 0, None) /\
  rssTime "yesterday" = (Time_zero, Some (ErrBadTime "yesterday")).
Proof.
  destruct rssTime_refines_reference as (_ & _ & Hbad & Hfirst & Hfourth).
  split; [apply Hfirst; reflexivity |].
  split; [apply (Hfourth (mkTime 63271756800 0 0)); reflexivity |].
  apply Hbad. exact yesterday_unparsable.
Defined.


Lemma atomFeed_first_content_witness :
  exists f e,
    atomFeed SampleXml.atom_decoded = Returned (f, None) /\
    Feed_Entries f !! 0 = Some e /\
    fixHtml (bytes_of_string
               (html_UnescapeString "&lt;p&gt;hello&lt;/p&gt;"))
      = Returned (Entry_Content e) /\
    Entry_Content e = hello.
Proof.
  destruct (atomFeed_first_content SampleXml.atom_decoded)
    as (Hreturns & _ & Hcontent).
  destruct (Hreturns sample_html_renders_safely) as (f & Hres).
  destruct (Hcontent f None 0%nat _ _ _ Hres eq_refl eq_refl)
    as (e & He & _ & _ & Hunescaped).
  exists f, e. split; [exact Hres |]. split; [exact He |].
  assert (fixHtml (bytes_of_string
                     (html_UnescapeString "&lt;p&gt;hello&lt;/p&gt;"))
          = Returned (Entry_Content e)) as Hfix.
  { apply Hunescaped. discriminate. }
  split; [exact Hfix |].
  assert (fixHtml (bytes_of_string
                     (html_UnescapeString "&lt;p&gt;hello&lt;/p&gt;"))
          = Returned hello) as Hrun by reflexivity.
  rewrite Hrun in Hfix. injection Hfix as <-. reflexivity.
Defined.

Lemma Read_results_witness :
  (exists f,
     Read (bytes_of_string SampleXml.rss_doc)
       = Returned (f, Some (ErrBadTime "yesterday")) /\
     ReadResult (bytes_of_string SampleXml.rss_doc)
       (f, Some (ErrBadTime "yesterday")) /\
     rss_populated (feed_Rss SampleXml.rss_decoded) f) /\
  ReadResult (bytes_of_string SampleXml.broken_doc)
    (Feed_zero, Some (XmlError "XML syntax error: unexpected EOF")).
Proof.
  split.
  - destruct (Read_results (bytes_of_string SampleXml.rss_doc))
      as (Hreturns & Hspec & Herror & _).
    destruct (Hreturns sample_html_renders_safely) as ([f err] & Hres).
    assert (err = Some (ErrBadTime "yesterday")) as ->.
    { assert (Returned (f, err) = Read (bytes_of_string SampleXml.rss_doc))
        as Hres' by (symmetry; exact Hres).
      vm_compute in Hres'. injection Hres' as _ ->. reflexivity. }
    exists f. split; [exact Hres |]. split; [exact (Hspec _ Hres) |].
    destruct (Herror _ _ Hres) as [(x & Hx & _) | (s & d & _ & Hd & _ & _ & Hpop)];
      [discriminate Hx |].
    assert (inl d = inl SampleXml.rss_decoded :> feed + xml_error) as Heq
      by (rewrite <- Hd; reflexivity).
    injection Heq as ->. exact Hpop.
  - destruct (Read_results (bytes_of_string SampleXml.broken_doc))
      as (_ & Hspec & _).
    apply Hspec. reflexivity.
Defined.

Lemma Read_one_entry_per_item_witness :
  exists f,
    Read (bytes_of_string SampleXml.rss_dated_doc) = Returned (f, None) /\
    length (Feed_Entries f) = 2 /\
    Forall2 entry_of_item
      (rss_Items (feed_Rss SampleXml.rss_dated_decoded)) (Feed_Entries f).
Proof.
  destruct (Read_one_entry_per_item (bytes_of_string SampleXml.rss_dated_doc)
              SampleXml.rss_dated_decoded decode_rss_dated_doc
              sample_html_renders_safely)
    as [Hrss _].
  destruct Hrss as (f & Hres & Hlen & Hents).
  - discriminate.
  - constructor; [right; eexists; exact channel_date_resolves |].
    constructor; [right; eexists; exact bare_date_resolves |].
    constructor; [left; reflexivity | constructor].
  - exists f. split; [exact Hres |]. split; [exact Hlen | exact Hents].
Defined.

(** An RSS document with one item, whose date is in a recognized format,
    and with an empty channel title: the structural decode accepts it,
    [Read] takes it as Atom since the channel title is empty, and the
    [Feed] it returns with a nil error has no entry for the item. *)
Lemma Read_untitled_channel_drops_items :
  @xml_Decode UntitledRss.xml (bytes_of_string UntitledRss.doc)
    = inl UntitledRss.decoded /\
  Forall (fun s => s = "" \/ exists t, resolves s t)
    (dates (feed_Rss UntitledRss.decoded)) /\
  length (rss_Items (feed_Rss UntitledRss.decoded)) = 1 /\
  feed_Entries UntitledRss.decoded = [] /\
  @Read UntitledRss.xml _ _ (bytes_of_string UntitledRss.doc)
    = Returned (Feed_zero, None) /\
  length (Feed_Entries Feed_zero)
    <> length (rss_Items (feed_Rss UntitledRss.decoded)).
Proof.
  split; [reflexivity |].
  split; [constructor; [by left |];
          constructor; [right; eexists; exact bare_date_resolves | constructor] |].
  split; [reflexivity |]. split; [reflexivity |]. split; [reflexivity |].
  discriminate.
Qed.

Lemma Read_dialect_witness :
  Read (bytes_of_string SampleXml.rss_doc)
    = rssFeed (feed_Rss SampleXml.rss_decoded) /\
  Read (bytes_of_string SampleXml.atom_doc) = atomFeed SampleXml.atom_decoded.
Proof.
  split.
  - destruct (Read_dialect (bytes_of_string SampleXml.rss_doc)
                SampleXml.rss_decoded decode_rss_doc) as [Hrss _].
    apply Hrss. discriminate.
  - destruct (Read_dialect (bytes_of_string SampleXml.atom_doc)
                SampleXml.atom_decoded decode_atom_doc) as [_ Hatom].
    apply Hatom. reflexivity.
Defined.

Lemma Read_atom_no_error_witness :
  exists f,
    Read (bytes_of_string SampleXml.atom_doc) = Returned (f, None) /\
    Feed_Updated f = reference_instant.
Proof.
  destruct (Read_atom_no_error (bytes_of_string SampleXml.atom_doc)
              SampleXml.atom_decoded decode_atom_doc eq_refl)
    as (_ & Hreturns & Hspec).
  destruct (Hreturns sample_html_renders_safely) as (f & Hres).
  exists f. split; [exact Hres |].
  destruct (Hspec f None Hres) as (_ & Hupd & _). rewrite Hupd. reflexivity.
Defined.

(** C9.  Markup Repair is not idempotent on every well-formed fragment.
    [x<!--</body>-->y] is well-formed HTML: a text, a comment and a
    text.  The renderer writes the comment's text as it is, so the first
    closing marker of the document is the one inside the comment, and
    [fixHtml] cuts the body there: it returns [x<!--], which has lost
    the second text and is no longer well-formed.  Repaired again, the
    open comment is closed, and the result is [x<!---->], another one.
    For the paragraph of the specification's example the result is the
    paragraph, and repairing it again changes nothing. *)
Theorem fixHtml_cuts_at_the_first_closing_marker :
  @fixHtml comment_html hello = Returned hello /\
  (w' ← @fixHtml comment_html hello; @fixHtml comment_html w')
    = @fixHtml comment_html hello /\
  bytes_Index (SampleHtml.document comment_fragment) openBody = 19%Z /\
  bytes_Index (comment_fragment ++ bytes_of_string "</body></html>") closeBody
    = 5%Z /\
  @fixHtml comment_html comment_fragment
    = Returned (bytes_of_string "x<!--") /\
  @fixHtml comment_html (bytes_of_string "x<!--")
    = Returned (bytes_of_string "x<!---->") /\
  (w' ← @fixHtml comment_html comment_fragment; @fixHtml comment_html w')
    <> @fixHtml comment_html comment_fragment.
Proof.
  repeat (split; [reflexivity |]). discriminate.
Qed.

(** C6.  The entry of the sample Atom document has two link elements,
    the first without rel and the second with rel "self".  The rule of
    the canonical link, which [link] applies to the feed's links, gives
    the href of the one without rel, in either order.  The entry's one
    [atomLink] holds the href of the element that comes last, so the
    entry of the [Feed] that [Read] returns has the href of the "self"
    link; with the two elements in the other order it would have the
    href of the one without rel. *)
Theorem atom_entry_link_is_last_href :
  link_loop (SampleXml.unmarshal_Links SampleXml.post_links)
    = "http://example.org/post" /\
  link_loop (SampleXml.unmarshal_Links (reverse SampleXml.post_links))
    = "http://example.org/post" /\
  SampleXml.unmarshal_Link SampleXml.post_links
    = mkAtomLink "self" "http://example.org/post.atom" /\
  SampleXml.unmarshal_Link (reverse SampleXml.post_links)
    = mkAtomLink "self" "http://example.org/post" /\
  atomEntry_Link <$> feed_Entries SampleXml.atom_decoded
    = [SampleXml.unmarshal_Link SampleXml.post_links] /\
  exists f,
    Read (bytes_of_string SampleXml.atom_doc) = Returned (f, None) /\
    Entry_Link <$> Feed_Entries f = ["http://example.org/post.atom"].
Proof.
  repeat (split; [reflexivity |]).
  eexists. split; reflexivity.
Qed.

(** * More of [webfeed.go] *)

Section webfeed_more.
Context `{!XmlPkg, !TimePkg, !HtmlPkg}.

(** A first instance of [sep] leaves no instance before its end. *)
Lemma FirstAt_Absent_before (sep s pre post : bytes) :
  sep <> [] -> FirstAt sep s pre post -> Absent sep pre.
Proof.
  intros Hsep [-> Hmin] a b ->.
  specialize (Hmin a (b ++ sep ++ post)).
  rewrite <- !app_assoc in Hmin. specialize (Hmin eq_refl).
  rewrite !length_app in Hmin. destruct sep; [done | simpl in Hmin; lia].
Qed.

(** X2.  What [fixHtml] returns is the escaped input, or bytes in which the
    closing body marker does not occur: a repaired fragment never
    closes the body of the document it is put in. *)
Theorem fixHtml_no_closing_marker (wild well : bytes) :
  fixHtml wild = Returned well ->
  well = escapeBytes wild \/ Absent closeBody well.
Proof.
  intros Hfix. pose proof (fixHtml_MarkupRepair wild) as Hspec.
  rewrite Hfix in Hspec.
  inversion Hspec as [| | | | | | n out pre mid post HP HR Hopen Hclose]; subst;
    try by left.
  right.
  apply (FirstAt_Absent_before closeBody (well ++ closeBody ++ post) well post);
    [discriminate | done].
Qed.

(** When [fixHtml] panics, the value is one the renderer panicked with,
    and not [bytes.ErrTooLarge]. *)
Lemma fixHtml_panicked (wild : bytes) (v : PanicValue) :
  fixHtml wild = Panicked v ->
  v <> ErrTooLarge /\ exists n, html_Render n = Panicked v.
Proof.
  intros Hfix. pose proof (fixHtml_MarkupRepair wild) as Hspec.
  rewrite Hfix in Hspec.
  inversion Hspec as [| | | n v' HP HR Hv | | |]; subst. eauto.
Qed.

Lemma rssFeed_loop_panicked (items : list rssItem) :
  forall f err v,
    rssFeed_loop items f err = Panicked v ->
    v <> ErrTooLarge /\ exists n, html_Render n = Panicked v.
Proof.
  induction items as [|it items IH]; intros f err v; simpl; [done |].
  destruct (rssTime (rssItem_Updated it)) as [when e].
  destruct (fixHtml (rssItem_Description it)) as [summary | v'] eqn:Hsum; cbn.
  2: { intros [= ->]. by apply (fixHtml_panicked _ _ Hsum). }
  destruct (fixHtml (rssContent_Data (rssItem_Content it))) as [content | v']
    eqn:Hcon; cbn.
  2: { intros [= ->]. by apply (fixHtml_panicked _ _ Hcon). }
  apply IH.
Qed.

Lemma atomFeed_loop_panicked (entries : list atomEntry) :
  forall f v,
    atomFeed_loop entries f = Panicked v ->
    v <> ErrTooLarge /\ exists n, html_Render n = Panicked v.
Proof.
  induction entries as [|ent entries IH]; intros f v; simpl; [done |].
  destruct (fixHtml (atomEntry_Summary ent)) as [summary | v'] eqn:Hsum; cbn.
  2: { intros [= ->]. by apply (fixHtml_panicked _ _ Hsum). }
  destruct (atomEntry_Content ent) as [|c contents]; cbn; [apply IH |].
  destruct (fixHtml (Data c)) as [content | v'] eqn:Hcon; cbn.
  2: { intros [= ->]. by apply (fixHtml_panicked _ _ Hcon). }
  apply IH.
Qed.

(** X3.  [Read] never panics with [bytes.ErrTooLarge]: a panic of [Read] is
    a panic of the renderer with another value, which [fixHtml] let
    through; the decoder and the date strings cannot make it panic. *)
Theorem Read_panic_is_the_renderers (r : bytes) (v : PanicValue) :
  Read r = Panicked v ->
  v <> ErrTooLarge /\ (exists n, html_Render n = Panicked v) /\
  exists d, xml_Decode r = inl d.
Proof.
  unfold Read. destruct (xml_Decode r) as [d | e]; [|done].
  intros Hread.
  assert (v <> ErrTooLarge /\ exists n, html_Render n = Panicked v) as [Hv Hn].
  { destruct (decide (rss_Title (feed_Rss d) <> "")).
    - unfold rssFeed in Hread. destruct (rssTime (rss_Updated (feed_Rss d))).
      by apply rssFeed_loop_panicked in Hread.
    - unfold atomFeed in Hread.
      destruct (atomFeed_loop (feed_Entries d) _) as [f | v'] eqn:Hloop; [done |].
      injection Hread as ->. by apply atomFeed_loop_panicked in Hloop. }
  split; [done |]. split; [done | by exists d].
Qed.

(** X4.  The links of what [atomFeed] returns: the feed's is the href of the
    first of the feed's links whose rel is empty or "alternate" (and
    empty without one); an entry's is the href of the one [atomLink]
    the entry was decoded into, whatever its rel. *)
Theorem atomFeed_links (a : feed) (f : Feed) (err : option error) :
  atomFeed a = Returned (f, err) ->
  canonical_link (feed_Links a) (Feed_Link f) /\
  Forall2 (fun ent e => Entry_Link e = atomLink_Href (atomEntry_Link ent))
    (feed_Entries a) (Feed_Entries f).
Proof.
  intros Hres. apply atomFeed_returned in Hres as (_ & _ & Hlink & _ & Hents).
  split; [exact Hlink |].
  induction Hents as [|ent e ents es (_ & He & _) _ IH]; constructor;
    [exact He | exact IH].
Qed.

(** The loop of [rssFeed] over items followed by more items is the loop
    over the first, then the loop over the others from where it ended. *)
Lemma rssFeed_loop_app (items more : list rssItem) :
  forall f err,
    rssFeed_loop (items ++ more) f err =
    ('(f', err') ← rssFeed_loop items f err; rssFeed_loop more f' err').
Proof.
  induction items as [|it items IH]; intros f err; simpl; [done |].
  destruct (rssTime (rssItem_Updated it)) as [when e].
  destruct (fixHtml (rssItem_Description it)) as [summary | v]; cbn; [|done].
  destruct (fixHtml (rssContent_Data (rssItem_Content it))) as [content | v];
    cbn; [|done].
  apply IH.
Qed.

(** X5.  Items added after a channel's own only add entries after its own:
    the entries of the shorter channel are the first entries of the
    longer one, and an error the shorter channel gives is the error the
    longer one gives. *)
Theorem rssFeed_more_items (r : rss) (more : list rssItem)
    (f f' : Feed) (err err' : option error) :
  rssFeed r = Returned (f, err) ->
  rssFeed (rss_with_more r more) = Returned (f', err') ->
  Feed_Entries f `prefix_of` Feed_Entries f' /\
  length (Feed_Entries f') = (length (Feed_Entries f) + length more)%nat /\
  (is_Some err -> err' = err).
Proof.
  unfold rssFeed. simpl.
  destruct (rssTime (rss_Updated r)) as [updated e].
  rewrite rssFeed_loop_app. intros ->. cbn. intros Hmore.
  apply rssFeed_loop_returned in Hmore as (ents & Hents & -> & Hkept & _).
  simpl. split; [by exists ents |].
  split; [rewrite length_app; by rewrite (Forall2_length _ _ _ Hents) | done].
Qed.

End webfeed_more.

(** X1.  The message of [ErrBadTime]: the fixed words, then the time string,
    which the message determines. *)
Theorem ErrBadTime_Error_inj (e1 e2 : string) :
  (ErrBadTime_Error e1 = ErrBadTime_Error e2 <-> e1 = e2) /\
  String.prefix "Unable to parse time: " (ErrBadTime_Error e1) = true /\
  String.length (ErrBadTime_Error e1) = (22 + String.length e1)%nat.
Proof.
  split; [split; [intros Heq | by intros ->] |].
  - by apply (inj (String.app "Unable to parse time: ")) in Heq.
  - split; [by destruct e1 | reflexivity].
Qed.

(** * feedme.go *)

Module feedme_proofs.
Import feedme.

(** ** The order of the feed list *)

Lemma index_in_range {A} (u : list A) (i : Z) :
  in_range u i -> exists x, u !! Z.to_nat i = Some x /\ index u i = Returned x.
Proof.
  intros [Hlo Hhi]. unfold index. rewrite (proj2 (Z.ltb_ge i 0) Hlo).
  destruct (u !! Z.to_nat i) as [x |] eqn:Hx; [by exists x |].
  apply lookup_ge_None in Hx. unfold len in Hhi. lia.
Qed.

Lemma index_out_of_range_panics {A} (u : list A) (i : Z) :
  ~ in_range u i -> index u i = Panicked index_out_of_range.
Proof.
  intros Hout. unfold index. destruct (i <? 0)%Z eqn:Hneg; [done |].
  destruct (u !! Z.to_nat i) as [x |] eqn:Hx; [|done].
  apply lookup_lt_Some in Hx. apply Z.ltb_ge in Hneg.
  destruct Hout. unfold in_range, len. lia.
Qed.

Lemma string_compare_refl (s : string) : (s ?= s)%string = Eq.
Proof.
  pose proof (String.compare_antisym s s) as Hanti.
  destruct (s ?= s)%string; simpl in Hanti; congruence.
Qed.

(** Go's [<] on strings is the strict part of [String.le]. *)
Lemma string_ltb_not_le (a b : string) :
  String.ltb a b = negb (String.leb b a).
Proof.
  unfold String.ltb, String.leb. rewrite (String.compare_antisym a b).
  by destruct (b ?= a)%string.
Qed.

Lemma string_ltb_false (a b : string) :
  String.ltb a b = false <-> String.le b a.
Proof.
  rewrite string_ltb_not_le. unfold String.le.
  destruct (String.leb b a); simpl; intuition (done || discriminate).
Qed.

Lemma string_ltb_true (a b : string) :
  String.ltb a b = true <-> ~ String.le b a.
Proof.
  rewrite <- string_ltb_false. destruct (String.ltb a b); intuition (done || discriminate).
Qed.

Lemma string_ltb_trans (a b c : string) :
  String.ltb a b = true -> String.ltb b c = true -> String.ltb a c = true.
Proof.
  rewrite !string_ltb_true. intros Hab Hbc Hca.
  destruct (total String.le a b) as [Hle | Hle]; [|done].
  apply Hbc. by trans a.
Qed.

Section order.
Context `{!StringsPkg}.

(** [Less] on indices in range compares the lowered titles. *)
Lemma Less_in_range (u : feedList) (i j : Z) :
  in_range u i -> in_range u j ->
  exists a b, u !! Z.to_nat i = Some a /\ u !! Z.to_nat j = Some b /\
    Less u i j = Returned (String.ltb (strings_ToLower (feedListEntry_Title a))
                                      (strings_ToLower (feedListEntry_Title b))).
Proof.
  intros Hi Hj.
  destruct (index_in_range u i Hi) as (a & Ha & Hia).
  destruct (index_in_range u j Hj) as (b & Hb & Hjb).
  exists a, b. unfold Less. by rewrite Hia, Hjb.
Qed.

(** X6.  On the indices of the list, [Less] is the strict weak order that
    [sort.Sort] needs: no entry is before itself, the order is
    transitive, so is its complement, and two entries are tied exactly
    when their titles are equal once lowered, so the sort is by title
    without regard to case. *)
Theorem Less_strict_weak_order (u : feedList) (i j k : Z) :
  in_range u i -> in_range u j -> in_range u k ->
  Less u i i = Returned false /\
  (Less u i j = Returned true -> Less u j i = Returned false) /\
  (Less u i j = Returned true -> Less u j k = Returned true ->
   Less u i k = Returned true) /\
  (Less u i j = Returned false -> Less u j k = Returned false ->
   Less u i k = Returned false) /\
  (Less u i j = Returned false /\ Less u j i = Returned false <->
   exists a b, u !! Z.to_nat i = Some a /\ u !! Z.to_nat j = Some b /\
     strings_ToLower (feedListEntry_Title a)
       = strings_ToLower (feedListEntry_Title b)).
Proof.
  intros Hi Hj Hk.
  destruct (Less_in_range u i i Hi Hi) as (a & a' & Ha & Ha' & Hii).
  destruct (Less_in_range u i j Hi Hj) as (a1 & b & Ha1 & Hb & Hij).
  destruct (Less_in_range u j i Hj Hi) as (b1 & a2 & Hb1 & Ha2 & Hji).
  destruct (Less_in_range u j k Hj Hk) as (b2 & c & Hb2 & Hc & Hjk).
  destruct (Less_in_range u i k Hi Hk) as (a3 & c1 & Ha3 & Hc1 & Hik).
  simplify_eq. rewrite Hii, Hij, Hji, Hjk, Hik.
  set (ta := strings_ToLower (feedListEntry_Title a)).
  set (tb := strings_ToLower (feedListEntry_Title b)).
  set (tc := strings_ToLower (feedListEntry_Title c)).
  split.
  { f_equal. apply string_ltb_false. done. }
  split.
  { intros [= Hab]. f_equal. apply string_ltb_false.
    apply string_ltb_true in Hab. by destruct (total String.le ta tb). }
  split.
  { intros [= Hab] [= Hbc]. f_equal. by apply (string_ltb_trans ta tb tc). }
  split.
  { intros [= Hab] [= Hbc]. f_equal. apply string_ltb_false.
    apply string_ltb_false in Hab, Hbc. by trans tb. }
  split.
  - intros [[= Hab] [= Hba]]. exists a, b. split; [done |]. split; [done |].
    apply string_ltb_false in Hab, Hba. by apply (anti_symm String.le).
  - intros (a0 & b0 & Ha0 & Hb0 & Heq). simplify_eq.
    fold ta tb in Heq. rewrite <- Heq.
    split; f_equal; by apply string_ltb_false.
Qed.

(** X7.  [Less] panics, with the run-time's index error, exactly when one of
    its indices is out of range. *)
Theorem Less_out_of_range (u : feedList) (i j : Z) :
  (in_range u i /\ in_range u j <-> exists b, Less u i j = Returned b) /\
  (~ (in_range u i /\ in_range u j) <->
   Less u i j = Panicked index_out_of_range).
Proof.
  assert (Decision (in_range u i)) as [Hi | Hi] by (unfold in_range; apply _);
  [assert (Decision (in_range u j)) as [Hj | Hj] by (unfold in_range; apply _)|].
  - destruct (Less_in_range u i j Hi Hj) as (a & b & _ & _ & ->).
    split; split; [by eexists | done | by intros [] | done].
  - destruct (index_in_range u i Hi) as (a & _ & Hia).
    unfold Less. rewrite Hia, (index_out_of_range_panics u j Hj). cbn.
    split; split; [by intros [_ ?] | by intros [? ?] | done | by intros _ [_ ?]].
  - unfold Less. rewrite (index_out_of_range_panics u i Hi). cbn.
    split; split; [by intros [? _] | by intros [? ?] | done | by intros _ [? _]].
Qed.

End order.

(** What [Swap] leaves at each place. *)
Lemma swapped_lookup (u : feedList) (ni nj k : nat) (a b : feedListEntry) :
  u !! ni = Some a -> u !! nj = Some b ->
  <[nj := a]> (<[ni := b]> u) !! k =
    if decide (k = nj) then Some a
    else if decide (k = ni) then Some b else u !! k.
Proof.
  intros Ha Hb.
  pose proof (lookup_lt_Some _ _ _ Ha). pose proof (lookup_lt_Some _ _ _ Hb).
  rewrite !list_lookup_insert, length_insert.
  repeat case_decide; try done; try lia; destruct_and?; exfalso; lia.
Qed.

(** X8.  [Swap] on indices in range exchanges the two entries and leaves the
    others where they are: the result has the length and the entries of
    the list, and swapping again gives the list back. *)
Theorem Swap_exchanges (u : feedList) (i j : Z) :
  in_range u i -> in_range u j ->
  exists u', Swap u i j = Returned u' /\
    Len u' = Len u /\
    u' ≡ₚ u /\
    u' !! Z.to_nat i = u !! Z.to_nat j /\
    u' !! Z.to_nat j = u !! Z.to_nat i /\
    (forall k, k <> Z.to_nat i -> k <> Z.to_nat j -> u' !! k = u !! k) /\
    Swap u' i j = Returned u.
Proof.
  intros Hi Hj.
  destruct (index_in_range u i Hi) as (a & Ha & Hia).
  destruct (index_in_range u j Hj) as (b & Hb & Hjb).
  set (ni := Z.to_nat i) in *. set (nj := Z.to_nat j) in *.
  set (u' := <[nj := a]> (<[ni := b]> u)).
  assert (forall k, u' !! k = if decide (k = nj) then Some a
                             else if decide (k = ni) then Some b else u !! k)
    as Hlookup by (intros k; by apply swapped_lookup).
  assert (length u' = length u) as Hlen by (unfold u'; by rewrite !length_insert).
  exists u'. split; [unfold Swap; by rewrite Hjb, Hia |].
  split; [unfold Len, len; by rewrite Hlen |].
  split.
  { apply Permutation_inj. split; [done |].
    exists (fun k => if decide (k = nj) then ni
                     else if decide (k = ni) then nj else k).
    split.
    - intros k1 k2. repeat case_decide; congruence.
    - intros k. rewrite Hlookup. repeat case_decide; congruence. }
  split; [rewrite Hlookup; repeat case_decide; congruence |].
  split; [rewrite Hlookup; repeat case_decide; congruence |].
  split; [intros k Hki Hkj; rewrite Hlookup; by repeat case_decide |].
  assert (in_range u' i) as Hi' by (unfold in_range, len in *; lia).
  assert (in_range u' j) as Hj' by (unfold in_range, len in *; lia).
  destruct (index_in_range u' i Hi') as (a' & Ha' & Hia').
  destruct (index_in_range u' j Hj') as (b' & Hb' & Hjb').
  fold ni in Ha'. fold nj in Hb'.
  unfold Swap. rewrite Hjb', Hia'. cbn. f_equal. fold ni nj.
  apply list_eq. intros k.
  rewrite (swapped_lookup u' ni nj k a' b' Ha' Hb').
  rewrite Hlookup in Ha', Hb'. rewrite Hlookup.
  repeat case_decide; congruence.
Qed.

(** X9.  [Swap] panics, with the run-time's index error, when one of its
    indices is out of range. *)
Theorem Swap_out_of_range (u : feedList) (i j : Z) :
  ~ (in_range u i /\ in_range u j) ->
  Swap u i j = Panicked index_out_of_range.
Proof.
  intros Hout. unfold Swap.
  assert (Decision (in_range u j)) as [Hj | Hj] by (unfold in_range; apply _).
  - destruct (index_in_range u j Hj) as (b & _ & ->). cbn.
    rewrite index_out_of_range_panics; [done | tauto].
  - by rewrite (index_out_of_range_panics u j Hj).
Qed.

(** ** The walk over an OPML outline *)

(** Induction on an outline, with the property at the outlines inside. *)
Lemma Outline_kids_ind (P : Outline -> Prop) :
  (forall url kids, Forall P kids -> P (mkOutline url kids)) ->
  forall r, P r.
Proof.
  intros Hnode. fix IH 1. intros [url kids]. apply Hnode.
  induction kids as [|kid kids IHkids]; constructor; [apply IH | exact IHkids].
Qed.

(** What the walk adds for an outline: its own URL unless empty, then
    what the walk finds in each outline inside, in order. *)
Lemma opmlWalk_node (url : string) (kids : list Outline) (urls : list string) :
  opmlWalk (mkOutline url kids) urls =
    urls ++ (if decide (url <> "") then [url] else [])
         ++ concat (map (fun kid => opmlWalk kid []) kids).
Proof.
  cbn [opmlWalk].
  assert (forall acc,
    (fix kids (Outlines : list Outline) (urls : list string) : list string :=
       match Outlines with
       | [] => urls
       | kid :: Outlines' => kids Outlines' (urls ++ opmlWalk kid [])
       end) kids acc
    = acc ++ concat (map (fun kid => opmlWalk kid []) kids)) as Hkids.
  { induction kids as [|kid kids IH]; intros acc; simpl.
    - by rewrite app_nil_r.
    - rewrite IH. by rewrite <- app_assoc. }
  rewrite Hkids. destruct (decide (url <> "")); [by rewrite <- app_assoc | done].
Qed.

(** X10.  The URLs given to [opmlWalk] are kept, in front of what it finds. *)
Theorem opmlWalk_keeps_urls (r : Outline) (urls : list string) :
  opmlWalk r urls = urls ++ opmlWalk r [].
Proof. destruct r as [url kids]. by rewrite !opmlWalk_node. Qed.

(** X11.  [opmlWalk] lists the [xmlUrl] of every outline of the tree that has
    one, in document order, each as often as it occurs: it never lists
    an empty string, and it lists a string exactly when an outline of
    the tree has it as its URL. *)
Theorem opmlWalk_document_order (r : Outline) :
  opmlWalk r [] = filter (fun u => u <> "") (Outline_XmlURL <$> preorder r) /\
  (forall u, u ∈ opmlWalk r [] <->
     u <> "" /\ exists o, o ∈ preorder r /\ Outline_XmlURL o = u).
Proof.
  assert (opmlWalk r []
          = filter (fun u => u <> "") (Outline_XmlURL <$> preorder r)) as Heq.
  { induction r as [url kids IH] using Outline_kids_ind.
    rewrite opmlWalk_node. cbn [preorder app]. rewrite fmap_cons.
    cbn [Outline_XmlURL].
    assert (concat (map (fun kid => opmlWalk kid []) kids)
            = filter (fun u => u <> "")
                (Outline_XmlURL <$> concat (map preorder kids))) as ->.
    { induction IH as [|kid kids Hkid _ IHkids]; [done |].
      simpl. by rewrite fmap_app, filter_app, Hkid, IHkids. }
    rewrite filter_cons. by destruct (decide (url <> "")). }
  split; [done |]. intros u. rewrite Heq, list_elem_of_filter, list_elem_of_fmap.
  split.
  - intros [Hu (o & -> & Ho)]. split; [done | by exists o].
  - intros [Hu (o & Ho & <-)]. split; [done | by exists o].
Qed.

(** ** The message of an error list *)

Lemma string_app_cons (c : ascii) (s1 s2 : string) :
  String c s1 +:+ s2 = String c (s1 +:+ s2).
Proof. reflexivity. Qed.

Lemma string_app_nil_r (s : string) : s +:+ "" = s.
Proof.
  induction s as [|c s IH]; [done |]. by rewrite string_app_cons, IH.
Qed.

Lemma string_app_assoc (s1 s2 s3 : string) :
  s1 +:+ (s2 +:+ s3) = (s1 +:+ s2) +:+ s3.
Proof.
  induction s1 as [|c s1 IH]; [done |]. by rewrite !string_app_cons, IH.
Qed.

Lemma string_length_app (s1 s2 : string) :
  String.length (s1 +:+ s2) = (String.length s1 + String.length s2)%nat.
Proof.
  induction s1 as [|c s1 IH]; [done |].
  rewrite string_app_cons. simpl. by rewrite IH.
Qed.

Section errorList.
Context `{!ErrorIface E}.

Lemma errorList_Error_loop_app (es : list E) (s : string) :
  errorList_Error_loop es s = s +:+ errorList_Error es.
Proof.
  unfold errorList_Error. revert s.
  induction es as [|e es IH]; intros s; simpl.
  - by rewrite string_app_nil_r.
  - rewrite (IH (s +:+ _)), (IH ("" +:+ _)).
    change ("" +:+ (Error e +:+ String newline ""))
      with (Error e +:+ String newline "").
    by rewrite !string_app_assoc.
Qed.

Lemma errorList_Error_cons (e : E) (es : list E) :
  errorList_Error (e :: es)
    = (Error e +:+ String newline "") +:+ errorList_Error es.
Proof. unfold errorList_Error at 1. simpl. by rewrite errorList_Error_loop_app. Qed.

(** X12.  The message of an error list is one line for each error, in order:
    the message of two lists one after the other is the two messages
    one after the other, its length is that of the errors' messages and
    one line end each, and it is empty for the empty list only. *)
Theorem errorList_Error_lines (es1 es2 : list E) :
  errorList_Error (es1 ++ es2) = errorList_Error es1 +:+ errorList_Error es2 /\
  String.length (errorList_Error es1)
    = sum_list_with (fun e => S (String.length (Error e))) es1 /\
  (errorList_Error es1 = "" <-> es1 = []).
Proof.
  split; [|split].
  - induction es1 as [|e es1 IH]; [done |].
    simpl. by rewrite !errorList_Error_cons, IH, !string_app_assoc.
  - induction es1 as [|e es1 IH]; [done |].
    rewrite errorList_Error_cons, !string_length_app, IH.
    cbn [sum_list_with String.length]. lia.
  - split; [|by intros ->]. destruct es1 as [|e es1]; [done |].
    rewrite errorList_Error_cons. intros Hnil.
    apply (f_equal String.length) in Hnil.
    rewrite !string_length_app in Hnil. simpl in Hnil. lia.
Qed.

Lemma one_line_split (m1 m2 r1 r2 : string) :
  one_line m1 -> one_line m2 ->
  m1 +:+ String newline r1 = m2 +:+ String newline r2 ->
  m1 = m2 /\ r1 = r2.
Proof.
  revert m2. induction m1 as [|c m1 IH]; intros [|c2 m2] H1 H2;
    rewrite ?string_app_cons; intros Heq.
  - by injection Heq as ->.
  - injection Heq as <- _. by destruct H2.
  - injection Heq as -> _. by destruct H1.
  - injection Heq as -> Heq. destruct H1 as [_ H1], H2 as [_ H2].
    by destruct (IH m2 H1 H2 Heq) as [-> ->].
Qed.

(** X13.  When no error's message has a line end in it, the message of the
    list gives the errors' messages back: two lists with one message
    have the same messages, one by one. *)
Theorem errorList_Error_inj (es1 es2 : list E) :
  Forall (fun e => one_line (Error e)) es1 ->
  Forall (fun e => one_line (Error e)) es2 ->
  errorList_Error es1 = errorList_Error es2 ->
  Error <$> es1 = Error <$> es2.
Proof.
  intros Hes1. revert es2.
  induction Hes1 as [|e1 es1 He1 _ IH]; intros es2 Hes2 Heq.
  - destruct es2 as [|e2 es2]; [done |].
    rewrite errorList_Error_cons, <- string_app_assoc in Heq.
    by destruct (Error e2).
  - destruct Hes2 as [|e2 es2 He2 Hes2].
    + rewrite errorList_Error_cons, <- string_app_assoc in Heq.
      by destruct (Error e1).
    + rewrite !errorList_Error_cons, <- !string_app_assoc in Heq.
      rewrite !string_app_cons in Heq.
      destruct (one_line_split _ _ _ _ He1 He2 Heq) as [Hmsg Hrest].
      rewrite !fmap_cons, Hmsg. f_equal. by apply IH.
Qed.

End errorList.
End feedme_proofs.

(** * The handlers of feedme.go *)

Module handlers_proofs.
Import feedme handlers.

Section handlers_proofs.
Context `{!StringsPkg, !AppTypes, !AppReplies}.

Local Abbreviation World := (list Call).

Lemma omap_length_le {A B} (f : A -> option B) (l : list A) :
  length (omap f l) <= length l.
Proof.
  induction l as [|x l IH]; csimpl; [done |]. destruct (f x); csimpl; lia.
Qed.

(** ** articlesSince *)

Lemma feed_read_functional (key : Key) (t : Time) (w : World)
    (r r' : list Article + error) (calls calls' : list Call) :
  feed_read key t w r calls -> feed_read key t w r' calls' ->
  r = r' /\ calls = calls'.
Proof.
  intros Hr Hr'.
  destruct Hr as [err Hget | f err Hget Hread | f as_ Hget Hread];
    destruct Hr' as [err' Hget' | f' err' Hget' Hread' | f' as' Hget' Hread'];
    rewrite Hget in Hget'; try discriminate Hget';
    injection Hget' as <-; try done;
    rewrite Hread in Hread'; try discriminate Hread';
    by injection Hread' as <-.
Qed.

Lemma feeds_read_functional (t : Time) (feeds : list Key) (w : World)
    (rs rs' : list (list Article + error)) (calls calls' : list Call) :
  feeds_read t feeds w rs calls -> feeds_read t feeds w rs' calls' ->
  rs = rs' /\ calls = calls'.
Proof.
  intros Hrs. revert rs' calls'.
  induction Hrs as [w | key feeds w r c rs cs Hr Hrs IH]; intros rs' calls' Hrs'.
  - by inversion Hrs'.
  - inversion Hrs' as [| key' feeds' w' r' c' rs'' cs' Hr' Hrest]; subst.
    destruct (feed_read_functional _ _ _ _ _ _ _ Hr Hr') as [<- <-].
    by destruct (IH _ _ Hrest) as [<- <-].
Qed.

Lemma feeds_read_length (t : Time) (feeds : list Key) (w : World)
    (rs : list (list Article + error)) (calls : list Call) :
  feeds_read t feeds w rs calls ->
  length rs = length feeds /\ loaded calls = feeds.
Proof.
  induction 1 as [w | key feeds w r c rs cs Hr Hrs [IHlen IHloaded]]; [done |].
  split; [simpl; by rewrite IHlen |].
  unfold loaded in *. rewrite omap_app, IHloaded. by destruct Hr.
Qed.

Lemma articlesSince_loop_spec (t : Time) (feeds : list Key) :
  forall articles errs w,
  exists rs calls,
    feeds_read t feeds w rs calls /\
    articlesSince_loop feeds t articles errs w
      = ((articles ++ articles_of rs, errs ++ errors_of rs), w ++ calls).
Proof.
  induction feeds as [|key feeds IH]; intros articles errs w.
  - exists [], []. split; [constructor |]. simpl. by rewrite !app_nil_r.
  - simpl. destruct (reply_Get w key) as [f | err] eqn:Hget.
    + destruct (reply_FeedInfo_articlesSince (w ++ [call_Get key]) f t)
        as [as_ | err] eqn:Hread.
      * destruct (IH (articles ++ as_) errs
                    ((w ++ [call_Get key]) ++ [call_FeedInfo_articlesSince f t]))
          as (rs & calls & Hrs & Hres).
        exists (inl as_ :: rs),
               ([call_Get key; call_FeedInfo_articlesSince f t] ++ calls).
        split.
        -- apply feeds_read_cons; [by apply (read_articles _ _ _ f) |].
           by rewrite <- app_assoc in Hrs.
        -- rewrite Hres. unfold articles_of. simpl.
           by rewrite <- !app_assoc.
      * destruct (IH articles
                    (errs ++ [Errorf (FeedInfo_Url f
                                      +:+ ": failed to read articles: "
                                      +:+ lib_Error err)])
                    ((w ++ [call_Get key]) ++ [call_FeedInfo_articlesSince f t]))
          as (rs & calls & Hrs & Hres).
        exists (inr (Errorf (FeedInfo_Url f +:+ ": failed to read articles: "
                             +:+ lib_Error err)) :: rs),
               ([call_Get key; call_FeedInfo_articlesSince f t] ++ calls).
        split.
        -- apply feeds_read_cons; [by apply read_unreadable |].
           by rewrite <- app_assoc in Hrs.
        -- rewrite Hres. unfold errors_of. simpl.
           by rewrite <- !app_assoc.
    + destruct (IH articles
                  (errs ++ [Errorf (Key_StringID key
                                    +:+ ": failed to load from the datastore: "
                                    +:+ lib_Error err)])
                  (w ++ [call_Get key]))
        as (rs & calls & Hrs & Hres).
      exists (inr (Errorf (Key_StringID key
                           +:+ ": failed to load from the datastore: "
                           +:+ lib_Error err)) :: rs),
             ([call_Get key] ++ calls).
      split.
      * apply feeds_read_cons; [by apply read_unloadable | done].
      * rewrite Hres. unfold errors_of. simpl. by rewrite <- !app_assoc.
Qed.

(** X14.  [articlesSince] reads every feed of the user, in order, whatever
    the earlier ones gave.  Each feed is read in the world the calls for
    the feeds before it left: it is loaded once, and gives the articles
    that [f.articlesSince] answered for the [FeedInfo] [f] that
    [datastore.Get] answered for its key, or one error, with the key's
    id when the load failed and with the URL of [f] when the reading
    failed, and with the failure's message.  These results are
    determined by the answers.  The articles returned are those of the
    feeds that could be read, in the order of the feeds, the errors are
    those of the others, in that order, and the calls made are the calls
    for the feeds, in that order. *)
Theorem articlesSince_tries_every_feed (uinfo : UserInfo) (t : Time)
    (w : World) :
  exists rs calls,
    feeds_read t (UserInfo_Feeds uinfo) w rs calls /\
    (forall rs' calls',
       feeds_read t (UserInfo_Feeds uinfo) w rs' calls' ->
       rs' = rs /\ calls' = calls) /\
    articlesSince uinfo t w = ((articles_of rs, errors_of rs), w ++ calls) /\
    length rs = length (UserInfo_Feeds uinfo) /\
    loaded calls = UserInfo_Feeds uinfo /\
    length (errors_of rs) <= length (UserInfo_Feeds uinfo).
Proof.
  destruct (articlesSince_loop_spec t (UserInfo_Feeds uinfo) [] [] w)
    as (rs & calls & Hrs & Hres).
  exists rs, calls. split; [done |].
  split.
  { intros rs' calls' Hrs'.
    by destruct (feeds_read_functional _ _ _ _ _ _ _ Hrs Hrs') as [<- <-]. }
  split; [done |].
  destruct (feeds_read_length _ _ _ _ _ Hrs) as [Hlen Hloaded].
  split; [done |]. split; [done |].
  rewrite <- Hlen. unfold errors_of. apply omap_length_le.
Qed.

(** ** handleOpml *)

Lemma all_subscribed_calls (urls : list string) (w : World)
    (fs : list FeedInfo) (calls : list Call) :
  all_subscribed urls w fs calls ->
  checked calls = urls /\ subscribed calls = fs /\ unsubscribed calls = [].
Proof.
  induction 1 as [w | url urls w f fs calls Hcheck Hsub Hrest (IHc & IHs & IHu)];
    [done |].
  csimpl. by rewrite IHc, IHs, IHu.
Qed.

(** The three ways the loop of [handleOpml] ends: after the last URL,
    at the first URL whose check fails, or at the first URL whose
    subscription fails. *)
Lemma handleOpml_loop_spec (urls : list string) :
  forall w,
    (exists fs calls,
       all_subscribed urls w fs calls /\
       handleOpml_loop urls w = (None, w ++ calls)) \/
    (exists before url after fs calls,
       urls = before ++ url :: after /\
       all_subscribed before w fs calls /\
       ((exists err,
           reply_checkUrl (w ++ calls) url = inr err /\
           handleOpml_loop urls w
             = (Some (http_Error ("failed to check URL " +:+ url +:+ ": "
                                  +:+ lib_Error err)
                        StatusInternalServerError),
                w ++ calls ++ [call_checkUrl url])) \/
        (exists f err,
           reply_checkUrl (w ++ calls) url = inl f /\
           reply_subscribe (w ++ calls ++ [call_checkUrl url]) f = Some err /\
           handleOpml_loop urls w
             = (Some (http_Error ("failed to subscribe " +:+ url +:+ ": "
                                  +:+ lib_Error err)
                        StatusInternalServerError),
                w ++ calls ++ [call_checkUrl url; call_subscribe f])))).
Proof.
  induction urls as [|url urls IH]; intros w.
  - left. exists [], []. split; [constructor |]. simpl. by rewrite app_nil_r.
  - simpl. destruct (reply_checkUrl w url) as [f | err] eqn:Hcheck.
    + destruct (reply_subscribe (w ++ [call_checkUrl url]) f) as [err |] eqn:Hsub.
      * right. exists [], url, urls, [], []. split; [done |].
        split; [constructor |]. right. exists f, err.
        rewrite app_nil_r. simpl. split; [done |]. split; [done |].
        by rewrite <- app_assoc.
      * assert ((w ++ [call_checkUrl url]) ++ [call_subscribe f]
                = w ++ [call_checkUrl url; call_subscribe f]) as Hw
          by (by rewrite <- app_assoc).
        rewrite Hw.
        destruct (IH (w ++ [call_checkUrl url; call_subscribe f]))
          as [(fs & calls & Hall & Hres)
             | (before & url' & after & fs & calls & -> & Hall & Hend)].
        -- left. exists (f :: fs), (call_checkUrl url :: call_subscribe f :: calls).
           split; [by constructor |].
           rewrite Hres. by rewrite <- app_assoc.
        -- right.
           exists (url :: before), url', after, (f :: fs),
                  (call_checkUrl url :: call_subscribe f :: calls).
           split; [done |]. split; [by constructor |].
           rewrite <- !app_assoc in Hend. simpl in Hend.
           destruct Hend as [(err & Hcheck' & Hres) | (f' & err & Hcheck' & Hsub' & Hres)].
           ++ left. exists err. simpl. by rewrite Hres.
           ++ right. exists f', err. simpl. rewrite Hres.
              split; [done |]. split; [done |]. by rewrite <- app_assoc.
    + right. exists [], url, urls, [], []. split; [done |].
      split; [constructor |]. left. exists err.
      rewrite app_nil_r. by simpl.
Qed.

(** X15.  For a POST whose OPML file decodes, [handleOpml] takes the URLs
    of the outline in document order: it checks each one, which answers
    a feed, and subscribes to that feed, each call answered in the
    world the calls before it left.  Without a failure it does so for
    every URL, these are all the calls it makes, and the response is
    the redirection to the list.  Otherwise it stops at the first URL
    for which [checkUrl] answers an error, or [subscribe] answers one
    for the feed that [checkUrl] answered: the URLs before it have been
    checked and their feeds subscribed to, the failed call is the last
    one, the response is the 500 error with that URL and the failure's
    message, and the URLs after it are not touched.  Nothing is ever
    unsubscribed. *)
Theorem handleOpml_stops_at_first_failure (r : Request) (w : World)
    (f : bytes) (Body : Outline) :
  Request_Method r = "POST" ->
  Request_FormFile r "opml" = inl f ->
  opml_Decode f = inl Body ->
  (exists fs calls,
     all_subscribed (opmlWalk Body []) w fs calls /\
     checked calls = opmlWalk Body [] /\
     subscribed calls = fs /\
     unsubscribed calls = [] /\
     handleOpml r w = (http_Redirect "/list" StatusFound, w ++ calls)) \/
  (exists before url after fs calls,
     opmlWalk Body [] = before ++ url :: after /\
     all_subscribed before w fs calls /\
     checked calls = before /\
     subscribed calls = fs /\
     unsubscribed calls = [] /\
     ((exists err,
         reply_checkUrl (w ++ calls) url = inr err /\
         handleOpml r w
           = (http_Error ("failed to check URL " +:+ url +:+ ": "
                          +:+ lib_Error err) StatusInternalServerError,
              w ++ calls ++ [call_checkUrl url])) \/
      (exists f' err,
         reply_checkUrl (w ++ calls) url = inl f' /\
         reply_subscribe (w ++ calls ++ [call_checkUrl url]) f' = Some err /\
         handleOpml r w
           = (http_Error ("failed to subscribe " +:+ url +:+ ": "
                          +:+ lib_Error err) StatusInternalServerError,
              w ++ calls ++ [call_checkUrl url; call_subscribe f'])))).
Proof.
  intros Hmethod Hfile Hdecode. unfold handleOpml.
  rewrite decide_False by (by intros ?). rewrite Hfile, Hdecode. cbn zeta.
  destruct (handleOpml_loop_spec (opmlWalk Body []) w)
    as [(fs & calls & Hall & Hres)
       | (before & url & after & fs & calls & Hurls & Hall & Hend)].
  - left. exists fs, calls. rewrite Hres.
    destruct (all_subscribed_calls _ _ _ _ Hall) as (? & ? & ?). by repeat split.
  - right. exists before, url, after, fs, calls.
    destruct (all_subscribed_calls _ _ _ _ Hall) as (? & ? & ?).
    split; [done |]. split; [done |]. split; [done |]. split; [done |].
    split; [done |].
    destruct Hend as [(err & Hcheck & Hres) | (f' & err & Hcheck & Hsub & Hres)].
    + left. exists err. by rewrite Hres.
    + right. exists f', err. by rewrite Hres.
Qed.

(** ** handleUpdate *)

Lemma occurrences_cons (url u : string) (urls : list string) :
  occurrences url (u :: urls)
    = ((if decide (u = url) then 1 else 0) + occurrences url urls)%nat.
Proof.
  unfold occurrences. rewrite filter_cons. by destruct (decide (u = url)).
Qed.

Lemma occurrences_not_in (url : string) (urls : list string) :
  url ∉ urls -> occurrences url urls = 0%nat.
Proof.
  induction urls as [|u urls IH]; [done |].
  rewrite not_elem_of_cons, occurrences_cons. intros [Hne Hnotin].
  rewrite decide_False by done. by rewrite IH.
Qed.

Lemma len_string_0 (s : string) : len_string s = 0%Z <-> s = "".
Proof. unfold len_string. destruct s; simpl; [done |]. split; [lia | done]. Qed.

Lemma all_true_delete (m : gmap string bool) (k : string) :
  all_true m -> all_true (delete k m).
Proof.
  intros Hm k' v Hk'. apply lookup_delete_Some in Hk' as [_ Hk']. by apply (Hm k').
Qed.

Lemma handleUpdate_urls_spec (urls : list string) :
  forall curFeeds errs w,
    all_true curFeeds ->
    exists calls,
      (handleUpdate_urls urls curFeeds errs w).2 = w ++ calls /\
      unsubscribed calls = [] /\
      all_true (handleUpdate_urls urls curFeeds errs w).1.1 /\
      (forall k,
         is_Some ((handleUpdate_urls urls curFeeds errs w).1.1 !! k) <->
         is_Some (curFeeds !! k) /\ k ∉ trimmed urls) /\
      (forall url,
         (occurrences url (checked calls)
          + (if decide (is_Some (curFeeds !! url) /\ url ∈ trimmed urls)
             then 1 else 0))%nat
         = occurrences url (trimmed urls)).
Proof.
  induction urls as [|line urls IH]; intros curFeeds errs w Htrue.
  { exists []. simpl. rewrite app_nil_r. split; [done |]. split; [done |].
    split; [done |]. split.
    - intros k. unfold trimmed. simpl. rewrite elem_of_nil. tauto.
    - intros url. rewrite decide_False; [done |].
      unfold trimmed. simpl. rewrite elem_of_nil. tauto. }
  cbn [handleUpdate_urls]. unfold trimmed. rewrite fmap_cons, filter_cons.
  fold (trimmed urls). set (u := strings_TrimSpace line).
  destruct (decide (len_string u = 0%Z)) as [Hempty | Hempty].
  { apply len_string_0 in Hempty. rewrite decide_False by (by intros ?).
    by apply IH. }
  rewrite len_string_0 in Hempty. rewrite decide_True by done.
  destruct (curFeeds !! u) as [[] |] eqn:Hu; simpl.
  - (* a feed of the user: it is kept *)
    destruct (IH (delete u curFeeds) errs w (all_true_delete _ u Htrue))
      as (calls & Hw & Hunsub & Htrue' & Hkeys & Hcount).
    exists calls. split; [done |]. split; [done |]. split; [done |]. split.
    + intros k. rewrite Hkeys, not_elem_of_cons.
      unfold is_Some. setoid_rewrite lookup_delete_Some.
      split.
      * intros [(v & Hne & Hv) Hnotin]. split; [by exists v | done].
      * intros [(v & Hv) [Hne Hnotin]]. split; [by exists v | done].
    + intros url. rewrite occurrences_cons. specialize (Hcount url).
      destruct (decide (u = url)) as [<- | Hne].
      * rewrite decide_False in Hcount
          by (intros [[v Hv] _]; by rewrite lookup_delete_eq in Hv).
        rewrite decide_True; [lia |]. split; [by rewrite Hu | left].
      * rewrite lookup_delete_ne in Hcount by done.
        rewrite <- Hcount. simpl. f_equal.
        apply decide_ext. rewrite elem_of_cons.
        split; [intros [? [? | ?]]; [congruence | done] |].
        intros [? ?]. split; [done | by right].
  - by specialize (Htrue u false Hu).
  - (* not a feed of the user, or no longer in the map: it is checked *)
    unfold checkUrl, subscribe.
    destruct (reply_checkUrl w u) as [f | err];
      [destruct (reply_subscribe (w ++ [call_checkUrl u]) f) as [err |] |];
      match goal with
      | |- context [handleUpdate_urls urls curFeeds ?errs' ?w'] =>
          destruct (IH curFeeds errs' w' Htrue)
            as (calls & Hw & Hunsub & Htrue' & Hkeys & Hcount);
          match w' with
          | (w ++ [?c1]) ++ [?c2] => exists (c1 :: c2 :: calls)
          | w ++ [?c1] => exists (c1 :: calls)
          end
      end;
      (split; [rewrite Hw; by rewrite <- ?app_assoc |]);
      (split; [done |]); (split; [done |]); (split;
       [ intros k; rewrite Hkeys, not_elem_of_cons; split; [|tauto];
         intros [[v Hv] Hnotin]; split; [by exists v |]; split; [|done];
         intros ->; congruence
       | intros url;
         change (occurrences url (u :: checked calls)
                 + (if decide (is_Some (curFeeds !! url)
                               /\ url ∈ u :: trimmed urls) then 1 else 0)
                 = occurrences url (u :: trimmed urls))%nat;
         rewrite !occurrences_cons; specialize (Hcount url);
         rewrite <- Hcount, <- Nat.add_assoc; f_equal; f_equal;
         apply decide_ext; rewrite elem_of_cons;
         split; [|tauto]; intros [[v Hv] [-> | Hin]]; [congruence |];
         split; [by exists v | done] ]).
Qed.

Lemma handleUpdate_unsubscribe_spec (urls : list string) :
  forall errs w, exists calls,
    (handleUpdate_unsubscribe urls errs w).2 = w ++ calls /\
    unsubscribed calls = datastore_NewKey feedKind <$> urls /\
    checked calls = [].
Proof.
  induction urls as [|url urls IH]; intros errs w.
  - exists []. simpl. by rewrite app_nil_r.
  - simpl. destruct (reply_unsubscribe w (datastore_NewKey feedKind url)).
    + destruct (IH (errs ++ [Errorf ("Failed to unsubscribe from " +:+ url
                                     +:+ ": " +:+ lib_Error l)])
                  (w ++ [call_unsubscribe (datastore_NewKey feedKind url)]))
        as (calls & -> & Hunsub & Hchecked).
      exists (call_unsubscribe (datastore_NewKey feedKind url) :: calls).
      split; [by rewrite <- app_assoc |]. split; [csimpl; by rewrite Hunsub | done].
    + destruct (IH errs
                  (w ++ [call_unsubscribe (datastore_NewKey feedKind url)]))
        as (calls & -> & Hunsub & Hchecked).
      exists (call_unsubscribe (datastore_NewKey feedKind url) :: calls).
      split; [by rewrite <- app_assoc |]. split; [csimpl; by rewrite Hunsub | done].
Qed.

Lemma handleUpdate_curFeeds_spec (feeds : list Key) :
  all_true (handleUpdate_curFeeds feeds) /\
  forall k, is_Some (handleUpdate_curFeeds feeds !! k) <->
            k ∈ Key_StringID <$> feeds.
Proof.
  unfold handleUpdate_curFeeds.
  assert (forall m : gmap string bool,
    all_true m ->
    all_true (foldl (fun curFeeds f => <[Key_StringID f := true]> curFeeds) m feeds) /\
    forall k,
      is_Some (foldl (fun curFeeds f => <[Key_StringID f := true]> curFeeds)
                 m feeds !! k) <->
      is_Some (m !! k) \/ k ∈ Key_StringID <$> feeds) as Hfold.
  { induction feeds as [|f feeds IH]; intros m Hm; simpl.
    - split; [done |]. intros k. rewrite elem_of_nil. tauto.
    - destruct (IH (<[Key_StringID f := true]> m)) as [Htrue Hkeys].
      { intros k v. rewrite lookup_insert_Some.
        intros [[_ <-] | [_ Hk]]; [done | by apply (Hm k)]. }
      split; [done |]. intros k. rewrite Hkeys. csimpl.
      rewrite elem_of_cons, lookup_insert_is_Some.
      destruct (decide (Key_StringID f = k)) as [-> |]; intuition congruence. }
  destruct (Hfold ∅) as [Htrue Hkeys]; [by intros k v; rewrite lookup_empty |].
  split; [done |]. intros k. rewrite Hkeys, lookup_empty.
  split; [intros [[? [=]] | ?]; done | by right].
Qed.

(** What [handleUpdate] does for a POST of a user it could load: the
    calls after [getUserInfo], the URLs they unsubscribe from, and how
    often each URL is checked. *)
Lemma handleUpdate_spec (r : Request) (w : World) (u : UserInfo) :
  Request_Method r = "POST" ->
  reply_getUserInfo w = inl u ->
  range_visits_keys ->
  exists calls ids,
    (handleUpdate r w).2 = w ++ call_getUserInfo :: calls /\
    unsubscribed calls = datastore_NewKey feedKind <$> ids /\
    NoDup ids /\
    (forall id, id ∈ ids <->
       id ∈ Key_StringID <$> UserInfo_Feeds u /\ id ∉ submitted r) /\
    (forall url,
       occurrences url (checked calls)
       = (occurrences url (submitted r)
          - (if decide (url ∈ Key_StringID <$> UserInfo_Feeds u)
             then 1 else 0))%nat).
Proof.
  intros Hmethod Huser Hrange. unfold handleUpdate.
  rewrite decide_False by (by intros ?). unfold getUserInfo. rewrite Huser.
  cbn zeta.
  destruct (handleUpdate_curFeeds_spec (UserInfo_Feeds u)) as [Htrue0 Hkeys0].
  set (lines := strings_Split (Request_FormValue r "urls") (String newline "")).
  destruct (handleUpdate_urls_spec lines
              (handleUpdate_curFeeds (UserInfo_Feeds u)) []
              (w ++ [call_getUserInfo]) Htrue0)
    as (calls1 & Hw1 & Hunsub1 & _ & Hkeys1 & Hcount1).
  destruct (handleUpdate_urls lines _ [] (w ++ [call_getUserInfo]))
    as [[curFeeds errs] w1]. simpl in Hw1, Hkeys1.
  destruct (handleUpdate_unsubscribe_spec (range_order curFeeds) errs w1)
    as (calls2 & Hw2 & Hunsub2 & Hchecked2).
  destruct (handleUpdate_unsubscribe (range_order curFeeds) errs w1)
    as [errs' w2]. simpl in Hw2.
  exists (calls1 ++ calls2), (range_order curFeeds).
  split.
  { destruct (0 <? len errs')%Z; simpl; subst w2 w1;
      by rewrite <- !app_assoc. }
  split; [unfold unsubscribed in *; by rewrite omap_app, Hunsub1, Hunsub2 |].
  destruct (Hrange curFeeds) as [Hnodup Hvisits].
  split; [done |]. split.
  - intros id. by rewrite Hvisits, Hkeys1, Hkeys0.
  - intros url. unfold checked in *. rewrite omap_app, Hchecked2, app_nil_r.
    specialize (Hcount1 url).
    change (submitted r) with (trimmed lines).
    destruct (decide (url ∈ Key_StringID <$> UserInfo_Feeds u)) as [Hin | Hnotin].
    + apply Hkeys0 in Hin.
      destruct (decide (url ∈ trimmed lines)) as [Hsub | Hsub].
      * rewrite decide_True in Hcount1 by done. lia.
      * rewrite decide_False in Hcount1 by tauto.
        rewrite (occurrences_not_in url (trimmed lines) Hsub) in Hcount1 |- *.
        lia.
    + rewrite decide_False in Hcount1; [lia |].
      intros [Hsome _]. by apply Hkeys0 in Hsome.
Qed.

(** X16.  [handleUpdate] unsubscribes the user from exactly the feeds that
    are not in the form: one call of [unsubscribe] for each of the
    user's feeds whose id is not among the submitted URLs, with the key
    of kind [feedKind] made from the id, and for no other; and this
    whatever the checks and subscriptions before it answered. *)
Theorem handleUpdate_unsubscribes_the_dropped (r : Request) (w : World)
    (u : UserInfo) :
  Request_Method r = "POST" ->
  reply_getUserInfo w = inl u ->
  range_visits_keys ->
  exists calls ids,
    (handleUpdate r w).2 = w ++ call_getUserInfo :: calls /\
    unsubscribed calls = datastore_NewKey feedKind <$> ids /\
    NoDup ids /\
    (forall id, id ∈ ids <->
       id ∈ Key_StringID <$> UserInfo_Feeds u /\ id ∉ submitted r).
Proof.
  intros Hmethod Huser Hrange.
  destruct (handleUpdate_spec r w u Hmethod Huser Hrange)
    as (calls & ids & ? & ? & ? & ? & _).
  by exists calls, ids.
Qed.

(** X17.  [handleUpdate] checks a submitted URL each time it is in the form,
    but for the first time when it is one of the user's feeds: a feed
    of the user is kept without a check when the form has it once, and
    is checked, and subscribed to, again for each further time; a URL
    that is not one of the user's feeds is checked as often as the form
    has it; and no other URL is checked. *)
Theorem handleUpdate_checks_the_new (r : Request) (w : World)
    (u : UserInfo) :
  Request_Method r = "POST" ->
  reply_getUserInfo w = inl u ->
  range_visits_keys ->
  exists calls,
    (handleUpdate r w).2 = w ++ call_getUserInfo :: calls /\
    forall url,
      occurrences url (checked calls)
      = (occurrences url (submitted r)
         - (if decide (url ∈ Key_StringID <$> UserInfo_Feeds u)
            then 1 else 0))%nat.
Proof.
  intros Hmethod Huser Hrange.
  destruct (handleUpdate_spec r w u Hmethod Huser Hrange)
    as (calls & ids & ? & _ & _ & _ & ?).
  by exists calls.
Qed.

(** ** handleRefreshAll *)

Lemma nexts_app (calls1 calls2 : World) :
  nexts (calls1 ++ calls2) = (nexts calls1 + nexts calls2)%nat.
Proof. unfold nexts. by rewrite omap_app, length_app. Qed.

Lemma nexts_snoc_Next (w : World) : nexts (w ++ [call_Next]) = S (nexts w).
Proof. rewrite nexts_app. unfold nexts at 2. csimpl. lia. Qed.

Lemma nexts_snoc_Add (w : World) (path feed : string) :
  nexts (w ++ [call_Add path feed]) = nexts w.
Proof. rewrite nexts_app. unfold nexts at 2. csimpl. lia. Qed.

Lemma queued_app (calls1 calls2 : World) :
  queued (calls1 ++ calls2) = queued calls1 ++ queued calls2.
Proof. unfold queued. by rewrite omap_app. Qed.

Lemma handleRefreshAll_loop_never (fuel : nat) :
  (forall w e, reply_Next w = inr e -> is_Done e = false) ->
  forall errs w, handleRefreshAll_loop fuel errs w = None.
Proof.
  intros Hnever. induction fuel as [|fuel IH]; intros errs w; simpl; [done |].
  destruct (reply_Next w) as [k | e] eqn:Hnext.
  - destruct (reply_Add _ _ _); apply IH.
  - rewrite (Hnever w e Hnext). apply IH.
Qed.

(** X18.  The loop of [handleRefreshAll] ends only when [it.Next] answers
    [datastore.Done]: another error of [it.Next] is recorded and
    [it.Next] is called again.  So with an iterator that never answers
    [datastore.Done], one that keeps answering an error for instance,
    the handler does not return, however long it runs. *)
Theorem handleRefreshAll_needs_Done (w : World) :
  (forall w' e, reply_Next w' = inr e -> is_Done e = false) ->
  forall fuel, handleRefreshAll fuel w = None.
Proof.
  intros Hnever fuel. unfold handleRefreshAll.
  by rewrite (handleRefreshAll_loop_never fuel Hnever).
Qed.

Lemma handleRefreshAll_loop_ends (n : nat) :
  (forall w, n <= nexts w ->
     exists e, reply_Next w = inr e /\ is_Done e = true) ->
  forall fuel errs w,
    n - nexts w < fuel ->
    exists errs' calls,
      handleRefreshAll_loop fuel errs w = Some (errs', w ++ calls) /\
      Forall (fun task => task.1 = "/refresh") (queued calls) /\
      length (queued calls) < nexts calls /\
      nexts calls <= fuel /\
      (errs' = [] -> errs = [] /\ S (length (queued calls)) = nexts calls).
Proof.
  intros Hdone. induction fuel as [|fuel IH]; intros errs w Hfuel; [lia |].
  simpl. destruct (reply_Next w) as [k | e] eqn:Hnext.
  - assert (nexts w < n) as Hlt.
    { destruct (decide (n <= nexts w)) as [Hle |]; [|lia].
      destruct (Hdone w Hle) as (e & He & _). congruence. }
    destruct (reply_Add (w ++ [call_Next]) "/refresh" (Key_Encode k)) as [err |].
    + destruct (IH (errs ++ [LibError err])
                  ((w ++ [call_Next]) ++ [call_Add "/refresh" (Key_Encode k)]))
        as (errs' & calls & -> & Hq & Hlen & Hn & Hnil);
        [rewrite nexts_snoc_Add, nexts_snoc_Next; lia |].
      exists errs', (call_Next :: call_Add "/refresh" (Key_Encode k) :: calls).
      split; [by rewrite <- !app_assoc |]. split; [by constructor |].
      change (nexts (call_Next :: call_Add "/refresh" (Key_Encode k) :: calls))
        with (S (nexts calls)).
      change (queued (call_Next :: call_Add "/refresh" (Key_Encode k) :: calls))
        with (("/refresh", Key_Encode k) :: queued calls).
      simpl. split; [lia |]. split; [lia |]. intros Hempty.
      destruct (Hnil Hempty) as [Herrs _]. by destruct errs.
    + destruct (IH errs
                  ((w ++ [call_Next]) ++ [call_Add "/refresh" (Key_Encode k)]))
        as (errs' & calls & -> & Hq & Hlen & Hn & Hnil);
        [rewrite nexts_snoc_Add, nexts_snoc_Next; lia |].
      exists errs', (call_Next :: call_Add "/refresh" (Key_Encode k) :: calls).
      split; [by rewrite <- !app_assoc |]. split; [by constructor |].
      change (nexts (call_Next :: call_Add "/refresh" (Key_Encode k) :: calls))
        with (S (nexts calls)).
      change (queued (call_Next :: call_Add "/refresh" (Key_Encode k) :: calls))
        with (("/refresh", Key_Encode k) :: queued calls).
      simpl. split; [lia |]. split; [lia |]. intros Hempty.
      destruct (Hnil Hempty) as [Herrs Hcount]. split; [done | lia].
  - destruct (is_Done e) eqn:He.
    + exists errs, [call_Next]. split; [done |]. split; [constructor |].
      change (nexts [call_Next]) with 1%nat.
      change (queued [call_Next]) with (@nil (string * string)).
      simpl. split; [lia |]. split; [lia |]. done.
    + assert (nexts w < n) as Hlt.
      { destruct (decide (n <= nexts w)) as [Hle |]; [|lia].
        destruct (Hdone w Hle) as (e' & He' & Hd). congruence. }
      destruct (IH (errs ++ [LibError e]) (w ++ [call_Next]))
        as (errs' & calls & -> & Hq & Hlen & Hn & Hnil);
        [rewrite nexts_snoc_Next; lia |].
      exists errs', (call_Next :: calls).
      split; [by rewrite <- app_assoc |]. split; [done |].
      change (nexts (call_Next :: calls)) with (S (nexts calls)).
      change (queued (call_Next :: calls)) with (queued calls).
      split; [lia |]. split; [lia |]. intros Hempty.
      destruct (Hnil Hempty) as [Herrs _]. by destruct errs.
Qed.

(** X19.  With an iterator that answers [datastore.Done] from its [n]-th call
    on at the latest, [handleRefreshAll] returns after at most [n+1]
    calls of [it.Next].  Every task it has queued is a POST to
    "/refresh", there is at most one task for each call of [it.Next]
    but the last, and when nothing is written to the response there is
    exactly one: every call but the last gave a key, and its task was
    queued. *)
Theorem handleRefreshAll_ends_at_Done (n : nat) (w : World) :
  (forall w', n <= nexts w' ->
     exists e, reply_Next w' = inr e /\ is_Done e = true) ->
  exists response calls,
    handleRefreshAll (S n) w = Some (response, w ++ calls) /\
    Forall (fun task => task.1 = "/refresh") (queued calls) /\
    length (queued calls) < nexts calls /\
    nexts calls <= S n /\
    (response = nothing_written ->
     S (length (queued calls)) = nexts calls) /\
    (response = nothing_written \/
     exists msg, response = http_Error msg StatusInternalServerError).
Proof.
  intros Hdone.
  destruct (handleRefreshAll_loop_ends n Hdone (S n) [] w)
    as (errs & calls & Hloop & Hq & Hlen & Hn & Hnil); [lia |].
  unfold handleRefreshAll. rewrite Hloop. cbn.
  destruct errs as [|e errs].
  - exists nothing_written, calls. split; [done |]. split; [done |].
    split; [done |]. split; [done |]. split; [|by left].
    intros _. by destruct (Hnil eq_refl).
  - eexists _, calls. split; [reflexivity |]. split; [done |].
    split; [done |]. split; [done |]. split; [done |]. right. by eexists.
Qed.

End handlers_proofs.
End handlers_proofs.

(** * The further theorems on samples *)

Module more_witnesses.
Import feedme handlers feedme_proofs handlers_proofs.

Lemma fixHtml_no_closing_marker_witness :
  hello = escapeBytes hello \/ Absent closeBody hello.
Proof. exact (fixHtml_no_closing_marker hello hello eq_refl). Defined.

Lemma Read_panic_is_the_renderers_witness :
  PanicOther "html: defect" <> ErrTooLarge /\
  (exists n, @html_Render defective_html n = Panicked (PanicOther "html: defect")) /\
  exists d, xml_Decode (bytes_of_string SampleXml.rss_doc) = inl d.
Proof.
  exact (@Read_panic_is_the_renderers sample_xml go_time defective_html
           (bytes_of_string SampleXml.rss_doc) (PanicOther "html: defect")
           eq_refl).
Defined.

Lemma atomFeed_links_witness :
  exists f,
    atomFeed SampleXml.atom_decoded = Returned (f, None) /\
    canonical_link (feed_Links SampleXml.atom_decoded) (Feed_Link f) /\
    Forall2 (fun ent e => Entry_Link e = atomLink_Href (atomEntry_Link ent))
      (feed_Entries SampleXml.atom_decoded) (Feed_Entries f).
Proof.
  destruct (atomFeed_returns SampleXml.atom_decoded sample_html_renders_safely)
    as [f Hf].
  exists f. split; [exact Hf |]. exact (atomFeed_links _ _ _ Hf).
Defined.

Lemma rssFeed_more_items_witness :
  exists f f' err err',
    rssFeed (feed_Rss SampleXml.rss_dated_decoded) = Returned (f, err) /\
    rssFeed (rss_with_more (feed_Rss SampleXml.rss_dated_decoded)
               SampleXml.rss_items) = Returned (f', err') /\
    Feed_Entries f `prefix_of` Feed_Entries f' /\
    length (Feed_Entries f') = (length (Feed_Entries f) + 3)%nat /\
    (is_Some err -> err' = err).
Proof.
  destruct (rssFeed_returns (feed_Rss SampleXml.rss_dated_decoded)
              sample_html_renders_safely) as [[f err] Hf].
  destruct (rssFeed_returns
              (rss_with_more (feed_Rss SampleXml.rss_dated_decoded)
                 SampleXml.rss_items)
              sample_html_renders_safely) as [[f' err'] Hf'].
  exists f, f', err, err'. split; [exact Hf |]. split; [exact Hf' |].
  exact (rssFeed_more_items _ _ _ _ _ _ Hf Hf').
Defined.

Lemma sample_in_range (i : Z) :
  (0 <= i < 3)%Z -> in_range SampleReplies.feeds i.
Proof. intros Hi. exact Hi. Defined.

Lemma Less_strict_weak_order_witness :
  Less SampleReplies.feeds 1 1 = Returned false /\
  Less SampleReplies.feeds 1 0 = Returned true /\
  Less SampleReplies.feeds 0 1 = Returned false /\
  Less SampleReplies.feeds 1 2 = Returned true.
Proof.
  assert (forall i, (0 <= i < 3)%Z -> in_range SampleReplies.feeds i) as Hin
    by exact sample_in_range.
  destruct (Less_strict_weak_order SampleReplies.feeds 1 0 2)
    as (Hirr & Hasym & Htrans & _); [apply Hin; lia..|].
  split; [exact Hirr |]. split; [reflexivity |].
  split; [exact (Hasym eq_refl) |]. exact (Htrans eq_refl eq_refl).
Defined.

Lemma Swap_exchanges_witness :
  exists u',
    Swap SampleReplies.feeds 0 2 = Returned u' /\
    Len u' = 3%Z /\
    u' ≡ₚ SampleReplies.feeds /\
    Swap u' 0 2 = Returned SampleReplies.feeds.
Proof.
  destruct (Swap_exchanges SampleReplies.feeds 0 2)
    as (u' & Hswap & Hlen & Hperm & _ & _ & _ & Hback);
    [apply sample_in_range; lia..|].
  exists u'. split; [exact Hswap |]. split; [exact Hlen |].
  split; [exact Hperm | exact Hback].
Defined.

Lemma Swap_out_of_range_witness :
  Swap SampleReplies.feeds 0 3 = Panicked index_out_of_range.
Proof.
  apply Swap_out_of_range. intros [_ [_ Hhi]]. unfold len in Hhi. simpl in Hhi.
  lia.
Defined.

Lemma errorList_Error_inj_witness :
  Error <$> [Errorf "a: failed"; LibError "b"]
    = Error <$> [LibError "a: failed"; Errorf "b"].
Proof.
  apply errorList_Error_inj; [| | reflexivity];
    repeat constructor; discriminate.
Defined.

Lemma sample_range_visits_keys : range_visits_keys.
Proof.
  intros m. split; [apply NoDup_fst_map_to_list |].
  intros k. simpl. rewrite list_elem_of_fmap. split.
  - intros ([k' v] & -> & Hin). apply elem_of_map_to_list in Hin. by exists v.
  - intros [v Hv]. exists (k, v). split; [done | by apply elem_of_map_to_list].
Qed.

Lemma sample_user :
  reply_getUserInfo []
    = inl (@mkUserInfo SampleApp.types
             ["http://a.example/feed"; "http://b.example/feed"]).
Proof. reflexivity. Defined.

Lemma handleOpml_stops_at_first_failure_witness :
  opmlWalk SampleApp.outline []
    = ["http://a.example/feed"; "http://down.example/feed";
       "http://c.example/feed"; "http://a.example/feed"] /\
  handleOpml SampleReplies.opml_request []
    = (http_Error "failed to check URL http://down.example/feed: no answer"
         StatusInternalServerError,
       [call_checkUrl "http://a.example/feed";
        call_subscribe "http://a.example/feed";
        call_checkUrl "http://down.example/feed"]) /\
  exists before url after fs calls,
    opmlWalk SampleApp.outline [] = before ++ url :: after /\
    all_subscribed before [] fs calls /\
    exists err,
      reply_checkUrl ([] ++ calls) url = inr err /\
      handleOpml SampleReplies.opml_request []
        = (http_Error ("failed to check URL " +:+ url +:+ ": " +:+ lib_Error err)
             StatusInternalServerError,
           [] ++ calls ++ [call_checkUrl url]).
Proof.
  split; [reflexivity |]. split; [reflexivity |].
  destruct (handleOpml_stops_at_first_failure SampleReplies.opml_request []
              (bytes_of_string SampleApp.opml_doc) SampleApp.outline
              eq_refl eq_refl eq_refl)
    as [(fs & calls & _ & _ & _ & _ & Hres)
       | (before & url & after & fs & calls & Hurls & Hall & _ & _ & _ & Hend)].
  - discriminate Hres.
  - exists before, url, after, fs, calls.
    split; [exact Hurls |]. split; [exact Hall |].
    destruct Hend as [(err & Hcheck & Hres) | (f' & err & _ & _ & Hres)].
    + exists err. split; [exact Hcheck | exact Hres].
    + discriminate Hres.
Defined.

(** The user's two feeds: the first gives its article, the second cannot
    be loaded. *)
Lemma articlesSince_tries_every_feed_witness :
  articlesSince
    (@mkUserInfo SampleApp.types
       ["http://a.example/feed"; "http://b.example/feed"]) Time_zero []
  = ((["article of http://a.example/feed"],
      [Errorf ("http://b.example/feed: failed to load from the datastore: "
               +:+ "datastore: no such entity")]),
     [call_Get "http://a.example/feed";
      call_FeedInfo_articlesSince "http://a.example/feed" Time_zero;
      call_Get "http://b.example/feed"]).
Proof.
  destruct (articlesSince_tries_every_feed
              (@mkUserInfo SampleApp.types
                 ["http://a.example/feed"; "http://b.example/feed"])
              Time_zero [])
    as (rs & calls & _ & Hunique & Hres & _).
  edestruct Hunique as [Hrs Hcalls].
  - eapply (@feeds_read_cons SampleApp.types SampleReplies.replies).
    + eapply (@read_articles SampleApp.types SampleReplies.replies); reflexivity.
    + eapply (@feeds_read_cons SampleApp.types SampleReplies.replies).
      * eapply (@read_unloadable SampleApp.types SampleReplies.replies).
        reflexivity.
      * apply (@feeds_read_nil SampleApp.types SampleReplies.replies).
  - destruct Hrs, Hcalls. exact Hres.
Defined.

Lemma handleUpdate_unsubscribes_the_dropped_witness :
  exists calls ids,
    (handleUpdate SampleReplies.update_request []).2
      = [] ++ call_getUserInfo :: calls /\
    unsubscribed calls = datastore_NewKey feedKind <$> ids /\
    NoDup ids /\
    (forall id, id ∈ ids <->
       id ∈ ["http://a.example/feed"; "http://b.example/feed"] /\
       id ∉ submitted SampleReplies.update_request) /\
    unsubscribed calls = ["http://b.example/feed"].
Proof.
  destruct (handleUpdate_unsubscribes_the_dropped SampleReplies.update_request []
              (@mkUserInfo SampleApp.types
                 ["http://a.example/feed"; "http://b.example/feed"])
              eq_refl sample_user sample_range_visits_keys)
    as (calls & ids & Hw & Hunsub & Hnodup & Hids).
  exists calls, ids. split; [exact Hw |]. split; [exact Hunsub |].
  split; [exact Hnodup |]. split; [exact Hids |].
  assert (call_getUserInfo :: calls
          = (handleUpdate SampleReplies.update_request []).2) as Hcalls
    by (symmetry; exact Hw).
  vm_compute in Hcalls. injection Hcalls as ->. reflexivity.
Defined.

Lemma handleUpdate_checks_the_new_witness :
  exists calls,
    (handleUpdate SampleReplies.update_request []).2
      = [] ++ call_getUserInfo :: calls /\
    occurrences "http://a.example/feed" (checked calls) = 1%nat /\
    occurrences "http://b.example/feed" (checked calls) = 0%nat /\
    occurrences "http://c.example/feed" (checked calls) = 1%nat.
Proof.
  destruct (handleUpdate_checks_the_new SampleReplies.update_request []
              (@mkUserInfo SampleApp.types
                 ["http://a.example/feed"; "http://b.example/feed"])
              eq_refl sample_user sample_range_visits_keys)
    as (calls & Hw & Hcount).
  exists calls. split; [exact Hw |].
  split; [|split]; rewrite Hcount; reflexivity.
Defined.

Lemma handleRefreshAll_needs_Done_witness :
  @handleRefreshAll _ SampleReplies.stuck 1000 [] = None.
Proof.
  apply (@handleRefreshAll_needs_Done _ SampleReplies.stuck []).
  intros w' e [= <-]. reflexivity.
Defined.

Lemma handleRefreshAll_ends_at_Done_witness :
  exists response calls,
    handleRefreshAll 3 [] = Some (response, [] ++ calls) /\
    length (queued calls) < nexts calls /\
    response = nothing_written /\
    queued calls = [("/refresh", "http://a.example/feed");
                    ("/refresh", "http://a.example/feed")].
Proof.
  destruct (handleRefreshAll_ends_at_Done 2 [])
    as (response & calls & Hrun & _ & Hlen & _).
  { intros w' Hw'. exists SampleApp.Done. split; [|reflexivity].
    simpl. destruct (decide (nexts w' < 2)%nat); [lia | reflexivity]. }
  exists response, calls. split; [exact Hrun |]. split; [exact Hlen |].
  assert (Some (response, calls) = handleRefreshAll 3 []) as Hrun'
    by (symmetry; exact Hrun).
  vm_compute in Hrun'. injection Hrun' as -> ->. split; reflexivity.
Defined.

End more_witnesses.
